(** * The client-session agent of pitaya: outbound pipeline, lifecycle, liveness

    A shallow embedding of [agent.go] (the per-connection agent) and of the
    helpers of [context/context.go] it calls, followed by the properties of
    the ordering stage, the producer entry points, [Close], [Kick], the
    heartbeat monitor and the construction of the handshake frame.

    Conventions.
    - Go's [uint] is modelled by [N]; the agent only assigns and compares
      message ids.  The conversion [uint(x)] of a signed [int] is written
      out as reduction modulo 2^64.
    - [int64] nanosecond durations and Unix times are modelled by [Z], the
      one multiplication of a duration being wrapped to 64 bits.
    - A [float64] is an IEEE 754 binary64 value ([spec_float] with 53 bits
      of precision and the exponent bound 1024), its operations rounding to
      nearest even.
    - A channel is the list of the items it currently buffers together with
      its capacity; a signal channel ([chan struct{}] that is only ever
      closed) is a boolean telling whether it has been closed.
    - A [select] statement picks one of the ready cases; the choice Go makes
      pseudo-randomly is an explicit argument [pick].
    - The collaborators behind Go interfaces (serializer, message encoder,
      packet encoder, metrics reporters) are records of their methods; the
      transport is the pair of answers its [Write] and [Close] give.
    - What the agent does to the world (logs, channel closes, callbacks,
      metrics, transport calls) is appended to a trace of events. *)

From Stdlib Require Import ZArith Lia SpecFloat.
From stdpp Require Import gmap strings list fin_maps sorting.

Open Scope N_scope.

(** ** Basic data *)

Definition bytes := list Byte.byte.

(** The errors the agent itself produces, and an opaque one for the errors
    returned by collaborators. *)
Inductive error :=
| ErrBrokenPipe            (* errors.NewError(constants.ErrBrokenPipe, ErrClientClosedRequest) *)
| ErrCloseClosedSession    (* constants.ErrCloseClosedSession *)
| ErrSessionOnNotify       (* constants.ErrSessionOnNotify *)
| ErrExternal (what : string).

(** What a call into a collaborator does: it returns a value, returns an
    error, or panics. *)
Inductive outcome (A : Type) :=
| Ok (a : A)
| Fail (e : error)
| Panics.
Arguments Ok {A} a.
Arguments Fail {A} e.
Arguments Panics {A}.

(** The [message] package, as far as the agent uses it. *)
Module message.
(** Modelled from the spec: [message.Type] is not among the sources; the four
    message types are the ones the spec lists for the message layer
    (Request, Notify, Response, Push). *)
Inductive MsgType := Request | Notify | Response | Push.

#[global] Instance MsgType_eq_dec : EqDecision MsgType.
Proof. solve_decision. Defined.

(** Modelled from the spec: [message.Message] is not among the sources; it
    has the fields the spec gives a message and that
    [getMessageFromPendingMessage] fills in. *)
Record Message := mkMessage {
  Typ   : MsgType;
  ID    : N;
  Route : string;
  Data  : bytes;
  Err   : bool
}.
End message.
Import message.

(** ** context/context.go *)

(** Modelled from the spec: [relation.Data] is [{SessID int64, MsgID int}]. *)
Record relationData := mkRelation { SessID : Z; MsgID : Z }.

(** The value stored under [constants.MsgRelationKey]: a relation table or
    a value of some other dynamic type. *)
Inductive relationValue :=
| RelTable (m : gmap string relationData)
| RelOther.

(** A value of the propagated map ([interface{}]): a string or not. *)
Inductive propValue :=
| PString (s : string)
| POther.

(** The value stored under [constants.PropagateCtxKey]. *)
Inductive propagateValue :=
| PropMap (m : gmap string propValue)
| PropOther.

Record ctxValues := mkCtx {
  msgRelation : option relationValue;   (* ctx.Value(constants.MsgRelationKey) *)
  propagate   : option propagateValue   (* ctx.Value(constants.PropagateCtxKey) *)
}.

(** A [context.Context]; [None] is the nil context. *)
Definition Context := option ctxValues.

(** [uint(x)] for a signed 64-bit [x]. *)
Definition uint_of_int (x : Z) : N := Z.to_N (x mod 2 ^ 64).

(** The function copies the table it finds into a fresh map; a nil context,
    a missing value or a value of another type give the empty map. *)
Definition GetRelationDataFromContext (ctx : Context) : gmap string relationData :=
  match ctx with
  | None => ∅
  | Some c =>
      match msgRelation c with
      | Some (RelTable v) => v
      | _ => ∅
      end
  end.

Definition GetRelationDataFromContextByUID (ctx : Context) (uid : string) : relationData :=
  match ctx with
  | None => mkRelation 0 0
  | Some _ => default (mkRelation 0 0) (GetRelationDataFromContext ctx !! uid)
  end.

Definition GetRelationMsgIdFromContext (ctx : Context) (uid : string) : N :=
  uint_of_int (MsgID (GetRelationDataFromContextByUID ctx uid)).

(** [ToMap]: the type assertion panics on a value that is not a map. *)
Definition ToMap (ctx : Context) : outcome (gmap string propValue) :=
  match ctx with
  | None => Ok ∅
  | Some c =>
      match propagate c with
      | Some (PropMap m) => Ok m
      | Some PropOther => Panics
      | None => Ok ∅
      end
  end.

(** [GetFromPropagateCtx]: [None] is the nil interface value. *)
Definition GetFromPropagateCtx (ctx : Context) (key : string) : outcome (option propValue) :=
  match ToMap ctx with
  | Ok m => Ok (m !! key)
  | Fail e => Fail e
  | Panics => Panics
  end.

(** ** Outbound items *)

(** [msg] is a pointer: [send] always sets it, the heartbeat monitor leaves
    it nil. *)
Record pendingWrite := mkPendingWrite {
  pw_ctx  : Context;
  pw_data : bytes;
  pw_err  : option error;
  pw_msg  : option Message
}.

(** ** The ordering stage ([ordered]) *)

(** The three fields of the agent that only the ordering goroutine writes. *)
Record orderState := mkOrder {
  curMsgID     : N;
  pushDelayMID : N;
  pushDelay    : gmap N (list pendingWrite)
}.

(** The state [newAgent] builds. *)
Definition newOrder : orderState := mkOrder 0 0 ∅.

(** [a.pushDelay[tID] = append(a.pushDelay[tID], pWrite)] *)
Definition delay (tID : N) (pWrite : pendingWrite)
    (pd : gmap N (list pendingWrite)) : gmap N (list pendingWrite) :=
  <[tID := default [] (pd !! tID) ++ [pWrite]]> pd.

(** [if val, ok := a.pushDelay[id]; ok { for v in val { send(v) };
    delete(a.pushDelay, id); a.pushDelayMID = 0 }].  The second component
    lists the items handed to [send], in order. *)
Definition restore (id : N) (st : orderState) : orderState * list pendingWrite :=
  match pushDelay st !! id with
  | Some val => (mkOrder (curMsgID st) 0 (delete id (pushDelay st)), val)
  | None => (st, [])
  end.

(** The keys of the map, collected and then sorted with [sort.Slice] and
    [keys[i] < keys[j]]. *)
Definition sortedKeys (pd : gmap N (list pendingWrite)) : list N :=
  merge_sort N.le (map_to_list pd).*1.

(** [for _, id := range keys { if id >= a.curMsgID { break }; ... }] *)
Fixpoint restoreOld (keys : list N) (st : orderState) : orderState * list pendingWrite :=
  match keys with
  | [] => (st, [])
  | id :: keys' =>
      if curMsgID st <=? id then (st, [])
      else
        let '(st1, out1) := restore id st in
        let '(st2, out2) := restoreOld keys' st1 in
        (st2, out1 ++ out2)
  end.

(** What follows [send(pWrite)] when the message is a response. *)
Definition afterResponse (m : Message) (st : orderState) : orderState * list pendingWrite :=
  let st0 := mkOrder (ID m) (pushDelayMID st) (pushDelay st) in
  let '(st1, out1) := restore (ID m) st0 in
  if bool_decide (pushDelay st1 = ∅) then (st1, out1)
  else
    let '(st2, out2) := restoreOld (sortedKeys (pushDelay st1)) st1 in
    (st2, out1 ++ out2).

(** The body of the loop of [ordered] once [m := pWrite.msg] has been read.
    The list is the sequence of items passed to the inner [send], which puts
    each on [chSend] (or drops it once [chDie] fired). *)
Definition orderedMsg (st : orderState) (pWrite : pendingWrite) (m : Message)
    : orderState * list pendingWrite :=
  if bool_decide (Typ m = message.Push) && (0 <? ID m) && (curMsgID st <? ID m) then
    (mkOrder (curMsgID st) (ID m) (delay (ID m) pWrite (pushDelay st)), [])
  else if bool_decide (Typ m = message.Push) && (0 <? pushDelayMID st) then
    (mkOrder (curMsgID st) (pushDelayMID st)
             (delay (pushDelayMID st) pWrite (pushDelay st)), [])
  else if bool_decide (Typ m = message.Response) then
    let '(st', out) := afterResponse m st in (st', pWrite :: out)
  else (st, [pWrite]).

(** One iteration on the item received from [chOrder]; [None] is the nil
    dereference of [m.Type] on an item without message. *)
Definition orderedIter (st : orderState) (pWrite : pendingWrite)
    : option (orderState * list pendingWrite) :=
  match pw_msg pWrite with
  | Some m => Some (orderedMsg st pWrite m)
  | None => None
  end.

(** The loop run over the successive contents of [chOrder]. *)
Fixpoint ordered (st : orderState) (items : list pendingWrite)
    : option (orderState * list pendingWrite) :=
  match items with
  | [] => Some (st, [])
  | pWrite :: rest =>
      match orderedIter st pWrite with
      | Some (st1, out1) =>
          match ordered st1 rest with
          | Some (st2, out2) => Some (st2, out1 ++ out2)
          | None => None
          end
      | None => None
      end
  end.

(** The type and the id of the message an item carries. *)
Definition msgTyp (p : pendingWrite) : option MsgType := Typ <$> pw_msg p.
Definition msgID (p : pendingWrite) : option N := ID <$> pw_msg p.

(** The claim "the push is forwarded strictly after the response", read on
    the sequence of forwarded items: [r] occurs, [p] occurs later, and [p]
    does not occur before that occurrence of [r]. *)
Definition forwardedAfter (out : list pendingWrite) (r p : pendingWrite) : Prop :=
  ∃ o1 o2 o3, out = o1 ++ r :: o2 ++ p :: o3 ∧ p ∉ o1.

(** The deferred items, bucket after bucket. *)
Definition pending (pd : gmap N (list pendingWrite)) : list pendingWrite :=
  mjoin (map_to_list pd).*2.

(** [p] sits in the bucket of key [k]. *)
Definition inBucket (p : pendingWrite) (k : N) (st : orderState) : Prop :=
  ∃ val, pushDelay st !! k = Some val ∧ p ∈ val.

(** [q] carries a message. *)
Definition hasMsg (q : pendingWrite) : Prop := is_Some (pw_msg q).

(** [q] is not a response with an id of [M] or more. *)
Definition respBelow (M : N) (q : pendingWrite) : Prop :=
  ∀ m, pw_msg q = Some m → Typ m = message.Response → ID m < M.

(** The release order of claim C2 as the specification words it: every
    bucket with a key of at most the response's id, in ascending key order. *)
Definition releasedAscending (st : orderState) (r : pendingWrite) (M : N)
    : list pendingWrite :=
  r :: mjoin ((λ k, default [] (pushDelay st !! k))
                <$> filter (λ k, k ≤ M) (sortedKeys (pushDelay st))).

(** ** Collaborators of the agent *)

(** Modelled from the spec: the packet kinds of the [packet] package
    (Handshake, HandshakeAck, Heartbeat, Data, Kick). *)
Inductive PacketType :=
  PktHandshake | PktHandshakeAck | PktHeartbeat | PktData | PktKick.

(** Go interfaces, as records of their methods. *)
Record PacketEncoder := {           (* codec.PacketEncoder *)
  pkt_Encode : PacketType → bytes → outcome bytes
}.

Record MessageEncoder := {          (* message.Encoder *)
  msg_Encode : Message → outcome bytes;
  IsCompressionEnabled : bool
}.

Record Serializer (Payload : Type) := {   (* serialize.Serializer, through util *)
  GetName : string;
  SerializeOrRaw : Payload → outcome bytes;       (* util.SerializeOrRaw *)
  GetErrorPayload : error → outcome bytes;        (* util.GetErrorPayload *)
  GetErrorFromPayload : bytes → error             (* util.GetErrorFromPayload *)
}.
Arguments GetName {Payload} _.
Arguments SerializeOrRaw {Payload} _ _.
Arguments GetErrorPayload {Payload} _ _.
Arguments GetErrorFromPayload {Payload} _ _.

(** The transport: what its [Write] and its [Close] answer.  The calls
    themselves are recorded in the trace of the agent. *)
Record Conn := {
  conn_WriteErr : option error;
  conn_CloseErr : option error
}.

(** A close callback: it is identified by a name, and it returns or
    panics. *)
Record callback := mkCallback { cb_name : string; cb_panics : bool }.

Record session := mkSession {
  sess_ID : Z;
  UID : string;
  OnCloseCallbacks : list callback      (* s.GetOnCloseCallbacks() *)
}.

Record SessionPool := mkPool {
  SessionCloseCallbacks : list callback;   (* GetSessionCloseCallbacks() *)
  SessionCount : Z
}.

(** A metrics reporter: the answer of its [ReportGauge]. *)
Record Reporter := { ReportGaugeErr : option error }.

(** Modelled from the spec: the agent states of the [constants] package
    (Start, Handshake, Working, Closed). *)
Inductive Status := StatusStart | StatusHandshake | StatusWorking | StatusClosed.

#[global] Instance Status_eq_dec : EqDecision Status.
Proof. solve_decision. Defined.

Inductive signal := SigStopWrite | SigStopOrder | SigStopHeartbeat | SigDie.

(** The effects of the agent on the world around it, in the order they
    happen. *)
Inductive event :=
| LogDebug (what : string)
| LogWarn (what : string)
| LogError (what : string)
| ChanClose (c : signal)                 (* close(ch) *)
| SessionCallback (cb : callback)        (* fn1() *)
| PoolCallback (cb : callback)           (* fn2(s) *)
| ReportClients                          (* metrics.ReportNumberOfConnectedClients *)
| ReportGauge (capacity : Z)             (* mr.ReportGauge(metrics.ChannelCapacity, ...) *)
| ConnWrite (p : bytes)                  (* a.conn.Write(p) *)
| ConnClose.                             (* a.conn.Close() *)

(** Modelled from the spec: the key of the route in the propagated map
    ([constants.RouteKey]). *)
Definition RouteKey : string := "Route".

(** [select]: one of the ready cases, chosen by [pick]; [None] when no case
    is ready and the goroutine parks. *)
Definition select {A : Type} (ready : list A) (pick : nat) : option A :=
  ready !! (pick `mod` length ready)%nat.

(** Time: nanoseconds since the Unix epoch; [Unix()] is the whole seconds. *)
Definition Second : Z := 1000000000.
Definition Unix (t : Z) : Z := (t `div` Second)%Z.

(** [float64]: IEEE 754 binary64. *)
Definition float64 := spec_float.

(** [float64(z)] for an integer [z]: the nearest binary64 value. *)
Definition float64_of_int (z : Z) : float64 := binary_normalize 53 1024 z 0 false.

(** [Duration.Seconds] of package [time]:
    [sec := d / Second; nsec := d % Second;
     return float64(sec) + float64(nsec)/1e9],
    with Go's truncated division and remainder. *)
Definition Seconds (d : Z) : float64 :=
  SFadd 53 1024
    (float64_of_int (Z.quot d Second))
    (SFdiv 53 1024 (float64_of_int (Z.rem d Second))
                   (float64_of_int 1000000000)).

(** An [int64] result, wrapped. *)
Definition wrap64 (x : Z) : Z := ((x + 2 ^ 63) `mod` 2 ^ 64 - 2 ^ 63)%Z.

(** [time.Now().Add(-2 * a.heartbeatTimeout).Unix()] *)
Definition deadline (now heartbeatTimeout : Z) : Z :=
  Unix (now + wrap64 (-2 * heartbeatTimeout))%Z.

Section Agent.
Context {Payload : Type}.

Record pendingMessage := mkPendingMessage {
  pm_ctx     : Context;
  pm_typ     : MsgType;
  pm_route   : string;
  pm_mid     : N;
  pm_payload : Payload;
  pm_err     : bool
}.

Record agentImpl := mkAgent {
  Session            : session;
  sessionPool        : SessionPool;
  chDie              : bool;                (* closed? *)
  chOrder            : list pendingWrite;   (* capacity messagesBufferSize*10 *)
  chSend             : list pendingWrite;   (* capacity messagesBufferSize *)
  chStopHeartbeat    : bool;
  chStopWrite        : bool;
  chStopOrder        : bool;
  conn               : Conn;
  encoder            : PacketEncoder;
  heartbeatTimeout   : Z;
  lastAt             : Z;
  messageEncoder     : MessageEncoder;
  messagesBufferSize : Z;
  metricsReporters   : list Reporter;
  serializer         : Serializer Payload;
  state              : Status;
  order              : orderState;          (* curMsgID, pushDelay, pushDelayMID *)
  trace              : list event
}.

(** What a call on the agent comes to. *)
Inductive callResult :=
| Returned (a : agentImpl) (err : option error)
| Blocked (a : agentImpl)        (* the goroutine is parked or polling *)
| Panicked (a : agentImpl).

Definition agentOf (r : callResult) : agentImpl :=
  match r with Returned a _ | Blocked a | Panicked a => a end.

(** Field updates. *)
Definition emit (e : event) (a : agentImpl) : agentImpl :=
  let 'mkAgent s sp die co cs sh sw so c enc hb la me mbs mr ser st ord tr := a in
  mkAgent s sp die co cs sh sw so c enc hb la me mbs mr ser st ord (tr ++ [e]).

Definition set_chOrder (co' : list pendingWrite) (a : agentImpl) : agentImpl :=
  let 'mkAgent s sp die co cs sh sw so c enc hb la me mbs mr ser st ord tr := a in
  mkAgent s sp die co' cs sh sw so c enc hb la me mbs mr ser st ord tr.

Definition set_chSend (cs' : list pendingWrite) (a : agentImpl) : agentImpl :=
  let 'mkAgent s sp die co cs sh sw so c enc hb la me mbs mr ser st ord tr := a in
  mkAgent s sp die co cs' sh sw so c enc hb la me mbs mr ser st ord tr.

(** [close(ch)] on an open signal channel. *)
Definition closeChan (ch : signal) (a : agentImpl) : agentImpl :=
  let 'mkAgent s sp die co cs sh sw so c enc hb la me mbs mr ser st ord tr := a in
  match ch with
  | SigStopWrite =>
      mkAgent s sp die co cs sh true so c enc hb la me mbs mr ser st ord (tr ++ [ChanClose ch])
  | SigStopOrder =>
      mkAgent s sp die co cs sh sw true c enc hb la me mbs mr ser st ord (tr ++ [ChanClose ch])
  | SigStopHeartbeat =>
      mkAgent s sp die co cs true sw so c enc hb la me mbs mr ser st ord (tr ++ [ChanClose ch])
  | SigDie =>
      mkAgent s sp true co cs sh sw so c enc hb la me mbs mr ser st ord (tr ++ [ChanClose ch])
  end.

Definition GetStatus (a : agentImpl) : Status := state a.

Definition SetStatus (st' : Status) (a : agentImpl) : agentImpl :=
  let 'mkAgent s sp die co cs sh sw so c enc hb la me mbs mr ser st ord tr := a in
  mkAgent s sp die co cs sh sw so c enc hb la me mbs mr ser st' ord tr.

(** [SetLastAt], at the time [now]. *)
Definition SetLastAt (now : Z) (a : agentImpl) : agentImpl :=
  let 'mkAgent s sp die co cs sh sw so c enc hb la me mbs mr ser st ord tr := a in
  mkAgent s sp die co cs sh sw so c enc hb (Unix now) me mbs mr ser st ord tr.

(** [newAgent], at the time [now], with the session the pool hands out. *)
Definition newAgent (c : Conn) (packetEncoder : PacketEncoder)
    (ser : Serializer Payload) (heartbeatTime : Z) (bufferSize : Z)
    (msgEncoder : MessageEncoder) (reporters : list Reporter)
    (pool : SessionPool) (s : session) (now : Z) : agentImpl :=
  mkAgent s pool false [] [] false false false c packetEncoder heartbeatTime
          (Unix now) msgEncoder bufferSize reporters ser StatusStart newOrder
          [ReportClients].

Definition getMessageFromPendingMessage (a : agentImpl) (pm : pendingMessage)
    : outcome Message :=
  let build payload :=
    mkMessage (pm_typ pm) (pm_mid pm) (pm_route pm) payload (pm_err pm) in
  match SerializeOrRaw (serializer a) (pm_payload pm) with
  | Ok payload => Ok (build payload)
  | Fail err =>
      match GetErrorPayload (serializer a) err with
      | Ok payload => Ok (build payload)
      | Fail err' => Fail err'
      | Panics => Panics
      end
  | Panics => Panics
  end.

Definition packetEncodeMessage (a : agentImpl) (m : Message) : outcome bytes :=
  match msg_Encode (messageEncoder a) m with
  | Ok em => pkt_Encode (encoder a) PktData em
  | Fail err => Fail err
  | Panics => Panics
  end.

(** [chSendCapacity := a.messagesBufferSize - len(a.chSend)] *)
Definition chSendCapacity (a : agentImpl) : Z :=
  (messagesBufferSize a - Z.of_nat (length (chSend a)))%Z.

(** The spare capacity of [chOrder], which is made with ten times the
    buffer size. *)
Definition chOrderCapacity (a : agentImpl) : Z :=
  (messagesBufferSize a * 10 - Z.of_nat (length (chOrder a)))%Z.

Definition reportChannelSize (a : agentImpl) : agentImpl :=
  let a1 :=
    if (chSendCapacity a =? 0)%Z
    then emit (LogWarn "chSend is at maximum capacity") a else a in
  foldl (λ acc mr,
           let acc := emit (ReportGauge (chSendCapacity a)) acc in
           match ReportGaugeErr mr with
           | Some _ => emit (LogWarn "failed to report chSend channel capaacity") acc
           | None => acc
           end)
        a1 (metricsReporters a).

(** The callbacks of a list in order, up to and including the first one
    that panics; the boolean tells whether one did. *)
Fixpoint runCallbacks (ev : callback → event) (cbs : list callback)
    : list event * bool :=
  match cbs with
  | [] => ([], false)
  | cb :: rest =>
      if cb_panics cb then ([ev cb], true)
      else let '(evs, panicked) := runCallbacks ev rest in (ev cb :: evs, panicked)
  end.

(** [onSessionClosed]: the panic of a callback is recovered and logged. *)
Definition onSessionClosedEvents (a : agentImpl) : list event :=
  let '(evs1, panicked1) :=
    runCallbacks SessionCallback (OnCloseCallbacks (Session a)) in
  if panicked1 then evs1 ++ [LogError "pitaya/onSessionClosed"]
  else
    let '(evs2, panicked2) :=
      runCallbacks PoolCallback (SessionCloseCallbacks (sessionPool a)) in
    evs1 ++ evs2 ++ (if panicked2 then [LogError "pitaya/onSessionClosed"] else []).

Definition onSessionClosed (a : agentImpl) : agentImpl :=
  foldl (λ acc e, emit e acc) a (onSessionClosedEvents a).

(** The end of [Close]: the metric, then [a.conn.Close()]. *)
Definition closeConn (a : agentImpl) : callResult :=
  Returned (emit ConnClose (emit ReportClients a)) (conn_CloseErr (conn a)).

(** [Close], run under [closeMutex].  Closing a channel that is already
    closed panics. *)
Definition Close (a : agentImpl) : callResult :=
  if bool_decide (GetStatus a = StatusClosed) then
    Returned a (Some ErrCloseClosedSession)
  else
    let a0 := emit (LogDebug "Session closed") (SetStatus StatusClosed a) in
    if chDie a0 then closeConn a0
    else if chStopWrite a0 then Panicked a0
    else
      let a1 := closeChan SigStopWrite a0 in
      if chStopOrder a1 then Panicked a1
      else
        let a2 := closeChan SigStopOrder a1 in
        if chStopHeartbeat a2 then Panicked a2
        else
          let a3 := closeChan SigStopHeartbeat a2 in
          let a4 := closeChan SigDie a3 in
          closeConn (onSessionClosed a4).

Inductive sendCase := CaseOrder | CaseDie.

(** [send]; a panic below it is recovered into [ErrBrokenPipe]. *)
Definition send (pick : nat) (a : agentImpl) (pendingMsg : pendingMessage)
    : callResult :=
  let a := reportChannelSize a in
  if (chSendCapacity a =? 0)%Z then
    let a := emit (LogWarn "the agent is will close as its network is busy") a in
    match Close a with
    | Returned a' _ => Returned a' None
    | Blocked a' => Blocked a'
    | Panicked a' => Returned a' (Some ErrBrokenPipe)
    end
  else
    match getMessageFromPendingMessage a pendingMsg with
    | Panics => Returned a (Some ErrBrokenPipe)
    | Fail err => Returned a (Some err)
    | Ok m =>
        match packetEncodeMessage a m with
        | Panics => Returned a (Some ErrBrokenPipe)
        | Fail err => Returned a (Some err)
        | Ok p =>
            let pWrite :=
              mkPendingWrite (pm_ctx pendingMsg) p
                (if pm_err pendingMsg
                 then Some (GetErrorFromPayload (serializer a) (Data m))
                 else None)
                (Some m) in
            let ready :=
              (if (0 <? chOrderCapacity a)%Z then [CaseOrder] else [])
                ++ (if chDie a then [CaseDie] else []) in
            match select ready pick with
            | Some CaseOrder => Returned (set_chOrder (chOrder a ++ [pWrite]) a) None
            | Some CaseDie => Returned a None
            | None => Blocked a
            end
        end
    end.

Definition Push (pick : nat) (a : agentImpl) (ctx : Context) (route : string)
    (v : Payload) : callResult :=
  if bool_decide (GetStatus a = StatusClosed) then Returned a (Some ErrBrokenPipe)
  else
    let mid := GetRelationMsgIdFromContext ctx (UID (Session a)) in
    send pick a (mkPendingMessage ctx message.Push route mid v false).

(** [ResponseMID]; the type assertion [route.(string)] panics on a route
    that is missing or not a string. *)
Definition ResponseMID (pick : nat) (a : agentImpl) (ctx : Context) (mid : N)
    (v : Payload) (isError : list bool) : callResult :=
  let err := match isError with e :: _ => e | [] => false end in
  if bool_decide (GetStatus a = StatusClosed) then Returned a (Some ErrBrokenPipe)
  else if mid <=? 0 then Returned a (Some ErrSessionOnNotify)
  else
    match GetFromPropagateCtx ctx RouteKey with
    | Ok (Some (PString route)) =>
        send pick a (mkPendingMessage ctx message.Response route mid v err)
    | _ => Panicked a
    end.

(** The closure [fn] of [Kick]: encode the kick packet, write it to the
    transport. *)
Definition kickWrite (a : agentImpl) : callResult :=
  match pkt_Encode (encoder a) PktKick [] with
  | Ok p => Returned (emit (ConnWrite p) a) (conn_WriteErr (conn a))
  | Fail err => Returned a (Some err)
  | Panics => Panicked a
  end.

(** [for a.curMsgID <= mid { <-t.C }; return fn()]: [a] is the agent as the
    loop test finds it, [later] the agent as each further tick of the 1 ms
    ticker finds it. *)
Fixpoint kickPoll (mid : N) (a : agentImpl) (later : list agentImpl) : callResult :=
  if curMsgID (order a) <=? mid then
    match later with
    | [] => Blocked a
    | a' :: later' => kickPoll mid a' later'
    end
  else kickWrite a.

Definition Kick (a : agentImpl) (later : list agentImpl) (ctx : Context)
    : callResult :=
  let mid := GetRelationMsgIdFromContext ctx (UID (Session a)) in
  if bool_decide (GetStatus a = StatusClosed) then
    Returned (emit (LogDebug "can't send kick, session has closed") a) None
  else if 0 <? mid then kickPoll mid a later
  else kickWrite a.

(** *** The heartbeat monitor *)

Inductive heartbeatCase := HbSend | HbDie | HbStop.

Inductive heartbeatExit := ExitTimeout | ExitDie | ExitStop.

(** What the monitor does on a tick: it goes on with the loop, it is
    parked in the inner [select], or it returns, and then the deferred
    [a.Close()] has run. *)
Inductive heartbeatStep :=
| HbContinue (a : agentImpl)
| HbParked (a : agentImpl)
| HbReturn (why : heartbeatExit) (a : agentImpl).

(** [pendingWrite{data: hbd}] *)
Definition heartbeatFrame (hbd : bytes) : pendingWrite :=
  mkPendingWrite None hbd None None.

(** The deferred function of [heartbeat]. *)
Definition heartbeatDeferred (a : agentImpl) : agentImpl := agentOf (Close a).

(** The branch [case <-ticker.C] at the time [now]. *)
Definition heartbeatTick (pick : nat) (hbd : bytes) (now : Z) (a : agentImpl)
    : heartbeatStep :=
  if (lastAt a <? deadline now (heartbeatTimeout a))%Z then
    HbReturn ExitTimeout
      (heartbeatDeferred (emit (LogDebug "Session heartbeat timeout") a))
  else
    let ready :=
      (if (0 <? chSendCapacity a)%Z then [HbSend] else [])
        ++ (if chDie a then [HbDie] else [])
        ++ (if chStopHeartbeat a then [HbStop] else []) in
    match select ready pick with
    | Some HbSend => HbContinue (set_chSend (chSend a ++ [heartbeatFrame hbd]) a)
    | Some HbDie => HbReturn ExitDie (heartbeatDeferred a)
    | Some HbStop => HbReturn ExitStop (heartbeatDeferred a)
    | None => HbParked a
    end.

(** *** Predicates used in the statements *)

(** The agent after it performed the events [evs] and changed nothing
    else. *)
Definition emits (evs : list event) (a : agentImpl) : agentImpl :=
  let 'mkAgent s sp die co cs sh sw so c enc hb la me mbs mr ser st ord tr := a in
  mkAgent s sp die co cs sh sw so c enc hb la me mbs mr ser st ord (tr ++ evs).

Definition isConnClose (e : event) : bool :=
  match e with ConnClose => true | _ => false end.

Definition isConnWrite (e : event) : bool :=
  match e with ConnWrite _ => true | _ => false end.

(** None of the four signal channels has been closed. *)
Definition channelsOpen (a : agentImpl) : Prop :=
  chDie a = false ∧ chStopWrite a = false
  ∧ chStopOrder a = false ∧ chStopHeartbeat a = false.

Definition channelsClosed (a : agentImpl) : Prop :=
  chDie a = true ∧ chStopWrite a = true
  ∧ chStopOrder a = true ∧ chStopHeartbeat a = true.

(** An agent on which [Close] has not run: only [Close] closes the
    channels, and it sets the state first. *)
Definition alive (a : agentImpl) : Prop :=
  GetStatus a ≠ StatusClosed ∧ channelsOpen a.

(** The invocations of close callbacks among the events. *)
Definition isCallback (e : event) : bool :=
  match e with
  | SessionCallback _ | PoolCallback _ => true
  | _ => false
  end.

(** All the close callbacks of the agent, the session's first, then the
    pool's. *)
Definition allCallbacks (a : agentImpl) : list event :=
  (SessionCallback <$> OnCloseCallbacks (Session a))
    ++ (PoolCallback <$> SessionCloseCallbacks (sessionPool a)).

Definition noCallbackPanics (a : agentImpl) : Prop :=
  Forall (λ cb, cb_panics cb = false)
         (OnCloseCallbacks (Session a) ++ SessionCloseCallbacks (sessionPool a)).

(** The events [Close] adds on an agent that is alive. *)
Definition closeEvents (a : agentImpl) : list event :=
  [LogDebug "Session closed"; ChanClose SigStopWrite; ChanClose SigStopOrder;
   ChanClose SigStopHeartbeat; ChanClose SigDie]
    ++ onSessionClosedEvents a ++ [ReportClients; ConnClose].
End Agent.

Arguments pendingMessage : clear implicits.
Arguments agentImpl : clear implicits.
Arguments callResult : clear implicits.
Arguments heartbeatStep : clear implicits.

(** ** The handshake and heartbeat frames ([hbdEncode]) *)

(** The value that is marshalled: the map under ["sys"] and the map
    [hData] that holds it. *)
Record sysData := mkSys {
  sys_heartbeat  : float64;           (* heartbeatTimeout.Seconds() *)
  sys_dict       : gmap string N;     (* message.GetDictionary() *)
  sys_serializer : string
}.

Record handshakeData := mkHandshake {
  hs_code : Z;
  hs_sys  : sysData
}.

(** The package-level functions [hbdEncode] calls. *)
Record Packages := {
  gojson_Marshal : handshakeData → outcome bytes;  (* encoding/json *)
  compression_DeflateData : bytes → outcome bytes; (* util/compression *)
  message_GetDictionary : gmap string N            (* message.GetDictionary() *)
}.

(** [hData] *)
Definition hData (pk : Packages) (heartbeatTimeout : Z)
    (serializerName : string) : handshakeData :=
  mkHandshake 200
    (mkSys (Seconds heartbeatTimeout) (message_GetDictionary pk) serializerName).

(** [hbdEncode]: the pair [(hrd, hbd)] it stores, or [None] when it
    panics. *)
Definition hbdEncode (pk : Packages) (heartbeatTimeout : Z)
    (packetEncoder : PacketEncoder) (dataCompression : bool)
    (serializerName : string) : option (bytes * bytes) :=
  match gojson_Marshal pk (hData pk heartbeatTimeout serializerName) with
  | Ok data =>
      let compressed :=
        if dataCompression then
          match compression_DeflateData pk data with
          | Ok compressedData =>
              Some (if (length compressedData <? length data)%nat
                    then compressedData else data)
          | _ => None
          end
        else Some data in
      match compressed with
      | Some data' =>
          match pkt_Encode packetEncoder PktHandshake data' with
          | Ok hrd =>
              match pkt_Encode packetEncoder PktHeartbeat [] with
              | Ok hbd => Some (hrd, hbd)
              | _ => None
              end
          | _ => None
          end
      | None => None
      end
  | _ => None
  end.

(** ** Scenarios *)

(** Items and states of the scenarios used below. *)
Definition mkItem (t : MsgType) (id : N) (route : string) : pendingWrite :=
  mkPendingWrite None [] None (Some (mkMessage t id route [] false)).

Definition push2 : pendingWrite := mkItem message.Push 2 "room.a".
Definition push3 : pendingWrite := mkItem message.Push 3 "room.c".
Definition push5 : pendingWrite := mkItem message.Push 5 "room.b".
Definition resp2 : pendingWrite := mkItem message.Response 2 "room.two".
Definition resp3 : pendingWrite := mkItem message.Response 3 "room.three".
Definition resp5 : pendingWrite := mkItem message.Response 5 "room.five".
Definition push7 : pendingWrite := mkItem message.Push 7 "room.update".
Definition push7' : pendingWrite := mkItem message.Push 7 "room.late".
Definition push0 : pendingWrite := mkItem message.Push 0 "chat".
Definition resp7 : pendingWrite := mkItem message.Response 7 "room.join".

(** Buckets 2, 5 and 3 filled in that order, no response seen yet. *)
Definition stBuckets235 : orderState :=
  mkOrder 0 3 (<[3 := [push3]]> (<[5 := [push5]]> (<[2 := [push2]]> ∅))).

(** The stage after it forwarded the response with id 5. *)
Definition stAfterResp5 : orderState := mkOrder 5 0 ∅.

(** A packet encoder that puts a tag in front of the body, a message
    encoder that keeps the data, a serializer of raw bytes. *)
Definition tagOf (t : PacketType) : Byte.byte :=
  match t with
  | PktHandshake => Byte.x01
  | PktHandshakeAck => Byte.x02
  | PktHeartbeat => Byte.x03
  | PktData => Byte.x04
  | PktKick => Byte.x05
  end.

Definition tagEncoder : PacketEncoder :=
  {| pkt_Encode := λ t body, Ok (tagOf t :: body) |}.

Definition dataEncoder : MessageEncoder :=
  {| msg_Encode := λ m, Ok (Data m); IsCompressionEnabled := false |}.

Definition rawSerializer : Serializer bytes :=
  {| GetName := "raw";
     SerializeOrRaw := λ v, Ok v;
     GetErrorPayload := λ _, Ok [];
     GetErrorFromPayload := λ _, ErrExternal "payload" |}.

Definition okConn : Conn := {| conn_WriteErr := None; conn_CloseErr := None |}.

Definition cbLeave : callback := mkCallback "leave-room" false.
Definition cbAudit : callback := mkCallback "audit" false.
Definition cbPool : callback := mkCallback "pool-count" false.

Definition session1 : session := mkSession 1 "u1" [cbLeave; cbAudit].
Definition pool1 : SessionPool := mkPool [cbPool] 1.

(** A fresh agent with buffer size 1 and a heartbeat interval of one
    second, created at time 0. *)
Definition agent1 : agentImpl bytes :=
  newAgent okConn tagEncoder rawSerializer Second 1 dataEncoder [] pool1 session1 0.

(** The same agent once [Close] has run on it. *)
Definition agent1Closed : agentImpl bytes := agentOf (Close agent1).

(** The agent with [chOrder] full (ten items for a buffer size of 1) and
    [chSend] empty. *)
Definition agent1OrderFull : agentImpl bytes :=
  set_chOrder (replicate 10 push0) agent1.

(** The agent with [chSend] full and [chOrder] empty. *)
Definition agent1SendFull : agentImpl bytes := set_chSend [push0] agent1.

Definition pushMessage : pendingMessage bytes :=
  mkPendingMessage None message.Push "room.update" 0 [] false.

(** A context whose relation table gives the user of [session1] the
    message id [mid]. *)
Definition ctxMid (mid : Z) : Context :=
  Some (mkCtx (Some (RelTable {[ "u1" := mkRelation 1 mid ]})) None).

(** [agent1] as the ordering stage leaves it with [curMsgID = cur]. *)
Definition agent1Cur (cur : N) : agentImpl bytes :=
  let 'mkAgent s sp die co cs sh sw so c enc hb la me mbs mr ser st ord tr := agent1 in
  mkAgent s sp die co cs sh sw so c enc hb la me mbs mr ser st
          (mkOrder cur 0 ∅) tr.

(** The heartbeat frame of the test encoder. *)
Definition hbd1 : bytes := [Byte.x03].

(** Two and a half seconds after the epoch. *)
Definition now2500ms : Z := 2500000000.

(** [agent1] with a heartbeat interval of 750 ms. *)
Definition agent750ms : agentImpl bytes :=
  newAgent okConn tagEncoder rawSerializer 750000000 1 dataEncoder [] pool1 session1 0.

(** Test packages: the JSON is four bytes long whatever the value, and
    "deflate" keeps the first [n] bytes. *)
Definition packagesTake (n : nat) : Packages :=
  {| gojson_Marshal := λ _, Ok [Byte.x7b; Byte.x22; Byte.x22; Byte.x7d];
     compression_DeflateData := λ d, Ok (take n d);
     message_GetDictionary := ∅ |}.

(** ** The rest of [context/context.go] *)

Definition GetSessionIdFromContext (ctx : Context) (uid : string) : Z :=
  SessID (GetRelationDataFromContextByUID ctx uid).

(** [AddToPropagateCtx]: the map [ToMap] returns receives the entry and is
    stored under [constants.PropagateCtxKey] of a child context, through
    which the other values of [ctx] stay visible.  [context.WithValue]
    panics on a nil parent. *)
Definition AddToPropagateCtx (ctx : Context) (key : string) (val : propValue)
    : outcome Context :=
  match ToMap ctx with
  | Ok propagate =>
      match ctx with
      | Some c =>
          Ok (Some (mkCtx (msgRelation c) (Some (PropMap (<[key := val]> propagate)))))
      | None => Panics
      end
  | Fail e => Fail e
  | Panics => Panics
  end.

(** [context.WithValue(context.Background(), constants.PropagateCtxKey, val)] *)
Definition FromMap (val : gmap string propValue) : Context :=
  Some (mkCtx None (Some (PropMap val))).

(** [encoding/json] on the propagated map. *)
Record JSONCodec := {
  json_Marshal : gmap string propValue → outcome bytes;
  json_Unmarshal : bytes → outcome (gmap string propValue)
}.

(** [Encode]: the empty byte string stands for the nil slice. *)
Definition Encode (jc : JSONCodec) (ctx : Context) : outcome bytes :=
  match ToMap ctx with
  | Ok m => if decide (m = ∅) then Ok [] else json_Marshal jc m
  | Fail e => Fail e
  | Panics => Panics
  end.

(** [Decode]: [Ok None] is the nil context returned with a nil error. *)
Definition Decode (jc : JSONCodec) (m : bytes) : outcome Context :=
  match m with
  | [] => Ok None
  | _ =>
      match json_Unmarshal jc m with
      | Ok mp => Ok (FromMap mp)
      | Fail e => Fail e
      | Panics => Panics
      end
  end.

(** ** The propagated map as a shared object

    A Go map is a reference.  To follow who sees an entry written by
    [AddToPropagateCtx], the functions that touch the propagated map are
    embedded a second time over a store of maps: the value under
    [constants.PropagateCtxKey] is the address of a map, and each function
    takes the store it runs in.  The addresses a context holds are those of
    maps of the store. *)
Module shared.

(** Addresses, and the maps that exist, by address. *)
Abbreviation loc := positive.
Abbreviation store := (gmap positive (gmap string propValue)).

(** The value stored under [constants.PropagateCtxKey]. *)
Inductive propagateValue :=
| PropMap (l : loc)
| PropOther.

Record ctxValues := mkCtx {
  msgRelation : option relationValue;   (* ctx.Value(constants.MsgRelationKey) *)
  propagate   : option propagateValue   (* ctx.Value(constants.PropagateCtxKey) *)
}.

Definition Context := option ctxValues.

(** [map[string]interface{}{}]: a new, empty map at an unused address. *)
Definition newMap (σ : store) : loc * store :=
  let l := fresh (dom σ) in (l, <[l := ∅]> σ).

(** [ToMap]: the map found in the context is returned as it is stored, by
    its address; without one a new map is made. *)
Definition ToMap (ctx : Context) (σ : store) : outcome (loc * store) :=
  match ctx with
  | None => Ok (newMap σ)
  | Some c =>
      match propagate c with
      | Some (PropMap l) => Ok (l, σ)
      | Some PropOther => Panics
      | None => Ok (newMap σ)
      end
  end.

(** [m[key] = val] on the map at address [l]. *)
Definition mapAssign (l : loc) (key : string) (val : propValue) (σ : store)
    : store :=
  alter (insert key val) l σ.

(** [val, ok := m[key]] on the map at address [l]. *)
Definition mapIndex (l : loc) (key : string) (σ : store) : option propValue :=
  σ !! l ≫= lookup key.

(** [AddToPropagateCtx]: the returned context and the store after the
    call. *)
Definition AddToPropagateCtx (ctx : Context) (key : string) (val : propValue)
    (σ : store) : outcome (Context * store) :=
  match ToMap ctx σ with
  | Ok (l, σ1) =>
      let σ2 := mapAssign l key val σ1 in
      match ctx with
      | Some c => Ok (Some (mkCtx (msgRelation c) (Some (PropMap l))), σ2)
      | None => Panics
      end
  | Fail e => Fail e
  | Panics => Panics
  end.

(** [GetFromPropagateCtx]; the map [ToMap] may have made for the occasion
    is not reachable after the call. *)
Definition GetFromPropagateCtx (ctx : Context) (key : string) (σ : store)
    : outcome (option propValue) :=
  match ToMap ctx σ with
  | Ok (l, σ1) => Ok (mapIndex l key σ1)
  | Fail e => Fail e
  | Panics => Panics
  end.

End shared.

(** The context of the first embedding that a context denotes in a store:
    each address is replaced by the map found there. *)
Definition view (σ : shared.store) (ctx : shared.Context) : Context :=
  match ctx with
  | None => None
  | Some c =>
      Some (mkCtx (shared.msgRelation c)
              (match shared.propagate c with
               | Some (shared.PropMap l) => Some (PropMap (default ∅ (σ !! l)))
               | Some shared.PropOther => Some PropOther
               | None => None
               end))
  end.

(** ** The rest of the agent *)

(** The two values [IPVersion] returns ([constants.IPv4], [constants.IPv6]). *)
Inductive ipVersion := IPv4 | IPv6.

(** [strings.Count(s, ":")] *)
Fixpoint countColons (s : string) : nat :=
  match s with
  | EmptyString => 0
  | String c s' => ((if Ascii.eqb c (Ascii.ascii_of_nat 58) then 1 else 0) + countColons s')%nat
  end.

(** [IPVersion], on the string of the remote address. *)
Definition IPVersion (ipPort : string) : ipVersion :=
  if (1 <? countColons ipPort)%nat then IPv6 else IPv4.

(** What the writer hands to the tracing and metrics sinks. *)
Inductive sinkEvent :=
| FinishSpan (ctx : Context) (err : option error)      (* tracing.FinishSpan *)
| ReportTiming (ctx : Context) (err : option error).   (* metrics.ReportTimingFromCtx *)

Inductive writerState := WriterRunning | WriterParked | WriterReturned.

Section AgentRest.
Context {Payload : Type}.

(** [SendHandshakeResponse], with the frame [hrd] that [hbdEncode] stored. *)
Definition SendHandshakeResponse (hrd : bytes) (a : agentImpl Payload)
    : callResult Payload :=
  Returned (emit (ConnWrite hrd) a) (conn_WriteErr (conn a)).

Inductive writeCase := WrRecv | WrStop.

(** What one turn of the loop of [write] does: it goes on, it parks in the
    [select], or the function returns, and then the deferred [a.Close()]
    has run. *)
Inductive writeStep :=
| WrContinue (a : agentImpl Payload) (sinks : list sinkEvent)
| WrParked (a : agentImpl Payload)
| WrReturn (a : agentImpl Payload) (sinks : list sinkEvent).

(** One turn of the loop of [write]. *)
Definition writeIter (pick : nat) (a : agentImpl Payload) : writeStep :=
  let ready :=
    (match chSend a with [] => [] | _ :: _ => [WrRecv] end)
      ++ (if chStopWrite a then [WrStop] else []) in
  match select ready pick with
  | Some WrRecv =>
      match chSend a with
      | pWrite :: rest =>
          let a1 := emit (ConnWrite (pw_data pWrite)) (set_chSend rest a) in
          match conn_WriteErr (conn a) with
          | Some err =>
              WrReturn
                (agentOf (Close (emit (LogError "Failed to write in conn") a1)))
                [FinishSpan (pw_ctx pWrite) (Some err);
                 ReportTiming (pw_ctx pWrite) (Some err)]
          | None =>
              WrContinue a1
                [FinishSpan (pw_ctx pWrite) None;
                 ReportTiming (pw_ctx pWrite) (pw_err pWrite)]
          end
      | [] => WrParked a
      end
  | Some WrStop => WrReturn (agentOf (Close a)) []
  | None => WrParked a
  end.

(** The loop of [write], one choice of the [select] per turn, for as many
    turns as there are choices. *)
Fixpoint write (picks : list nat) (a : agentImpl Payload)
    : agentImpl Payload * list sinkEvent * writerState :=
  match picks with
  | [] => (a, [], WriterRunning)
  | pick :: picks' =>
      match writeIter pick a with
      | WrContinue a1 sinks1 =>
          let '(a2, sinks2, ws) := write picks' a1 in (a2, sinks1 ++ sinks2, ws)
      | WrParked a1 => (a1, [], WriterParked)
      | WrReturn a1 sinks1 => (a1, sinks1, WriterReturned)
      end
  end.

(** What the sinks receive for an item that was written. *)
Definition writtenSinks (pWrite : pendingWrite) : list sinkEvent :=
  [FinishSpan (pw_ctx pWrite) None; ReportTiming (pw_ctx pWrite) (pw_err pWrite)].

(** The message [send] builds when the serializer and the encoders answer
    [payload] and [p]. *)
Definition sentItem (a : agentImpl Payload) (pm : pendingMessage Payload)
    (payload p : bytes) : pendingWrite :=
  mkPendingWrite (pm_ctx pm) p
    (if pm_err pm then Some (GetErrorFromPayload (serializer a) payload) else None)
    (Some (mkMessage (pm_typ pm) (pm_mid pm) (pm_route pm) payload (pm_err pm))).
End AgentRest.

Arguments writeStep : clear implicits.

(** ** Predicates on the ordering stage *)

Definition isPush (p : pendingWrite) : Prop := msgTyp p = Some message.Push.

Definition isResponse (p : pendingWrite) : Prop :=
  msgTyp p = Some message.Response.

#[global] Instance isResponse_dec (p : pendingWrite) : Decision (isResponse p).
Proof. unfold isResponse. apply _. Defined.

(** A push with id [M]. *)
Definition pushWithID (M : N) (p : pendingWrite) : Prop :=
  ∃ m, pw_msg p = Some m ∧ Typ m = message.Push ∧ ID m = M.

(** What holds of the deferred pushes in every state the ordering stage
    reaches: each bucket has a key above [curMsgID], is not empty and holds
    pushes only, and a gate that is set names a bucket. *)
Definition orderInv (st : orderState) : Prop :=
  (∀ k val, pushDelay st !! k = Some val →
     curMsgID st < k ∧ val ≠ [] ∧ Forall isPush val)
  ∧ (pushDelayMID st = 0 ∨ is_Some (pushDelay st !! pushDelayMID st)).

(** ** More scenarios *)

Definition cbBoom : callback := mkCallback "boom" true.

(** An agent whose second session callback panics. *)
Definition agentBoom : agentImpl bytes :=
  newAgent okConn tagEncoder rawSerializer Second 1 dataEncoder [] pool1
           (mkSession 2 "u2" [cbLeave; cbBoom; cbAudit]) 0.

(** A transport whose [Write] fails. *)
Definition brokenConn : Conn :=
  {| conn_WriteErr := Some (ErrExternal "EPIPE"); conn_CloseErr := None |}.

Definition item (n : Byte.byte) : pendingWrite :=
  mkPendingWrite None [n] None None.

(** An agent with room for four items on [chSend], two of them waiting. *)
Definition agentTwoQueued : agentImpl bytes :=
  set_chSend [item Byte.x0a; item Byte.x0b]
    (newAgent okConn tagEncoder rawSerializer Second 4 dataEncoder [] pool1 session1 0).

Definition agentBrokenConn : agentImpl bytes :=
  set_chSend [item Byte.x0a; item Byte.x0b]
    (newAgent brokenConn tagEncoder rawSerializer Second 4 dataEncoder [] pool1 session1 0).

(** An agent made with a buffer size of zero. *)
Definition agentUnbuffered : agentImpl bytes :=
  newAgent okConn tagEncoder rawSerializer Second 0 dataEncoder [] pool1 session1 0.

(** A serializer that fails on every payload and has an error payload. *)
Definition failingSerializer : Serializer bytes :=
  {| GetName := "failing";
     SerializeOrRaw := λ _, Fail (ErrExternal "marshal");
     GetErrorPayload := λ _, Ok [Byte.x45];
     GetErrorFromPayload := λ _, ErrExternal "payload" |}.

Definition agentFailingSerializer : agentImpl bytes :=
  newAgent okConn tagEncoder failingSerializer Second 1 dataEncoder [] pool1 session1 0.


(** A JSON codec for the scenarios: a marker byte, and the map kept aside. *)
Definition toyCodec (m0 : gmap string propValue) : JSONCodec :=
  {| json_Marshal := λ _, Ok [Byte.x7b; Byte.x7d];
     json_Unmarshal := λ _, Ok m0 |}.

(** The stage with bucket 5 still waiting after the response with id 3. *)
Definition stWaiting5 : orderState := mkOrder 3 0 {[ 5 := [push5] ]}.

(** The stage after the response with id 5, with a gate set for id 7. *)
Definition stGate7 : orderState := mkOrder 5 7 {[ 7 := [push7] ]}.

(** Packages whose deflate fails. *)
Definition packagesNoDeflate : Packages :=
  {| gojson_Marshal := λ _, Ok [Byte.x7b; Byte.x7d];
     compression_DeflateData := λ _, Fail (ErrExternal "deflate");
     message_GetDictionary := ∅ |}.

(** The propagated map of the scenarios: the route. *)
Definition routeMap : gmap string propValue := {[ RouteKey := PString "room.join" ]}.

(** A store with that map at address 1, and a context that holds it. *)
Definition storeRoute : shared.store := {[ 1%positive := routeMap ]}.

Definition ctxShared : shared.ctxValues :=
  shared.mkCtx None (Some (shared.PropMap 1%positive)).

(** A context with a relation entry whose message id is -1. *)
Definition ctxNegative : ctxValues :=
  mkCtx (Some (RelTable {[ "u1" := mkRelation 9 (-1) ]})) None.

(* ===================================================================== *)
(** * Properties *)
(* ===================================================================== *)

(** ** The ordering stage *)

Example ordered_push_then_response :
  ordered newOrder [push7; resp7] = Some (mkOrder 7 0 ∅, [resp7; push7]).
Proof. vm_compute. reflexivity. Qed.

Example ordered_scenario3 :
  snd <$> ordered newOrder [push2; push5; push3; resp5; resp3]
  = Some [resp5; push5; push2; push3; resp3].
Proof. vm_compute. reflexivity. Qed.

Example stBuckets235_reached :
  ordered newOrder [push2; push5; push3] = Some (stBuckets235, []).
Proof. vm_compute. reflexivity. Qed.

Example stAfterResp5_reached :
  ordered newOrder [resp5] = Some (stAfterResp5, [resp5]).
Proof. vm_compute. reflexivity. Qed.

Section OrderingStage.
Implicit Types (st : orderState) (p q r : pendingWrite) (m : Message).
Implicit Types (pd : gmap N (list pendingWrite)) (keys : list N).

(** *** Shape of the release steps *)

Lemma restore_eq id st :
  restore id st =
    (mkOrder (curMsgID st)
             (if pushDelay st !! id is Some _ then 0 else pushDelayMID st)
             (delete id (pushDelay st)),
     default [] (pushDelay st !! id)).
Proof.
  unfold restore. destruct (pushDelay st !! id) eqn:E; simpl; [done|].
  rewrite delete_id by done. by destruct st.
Qed.

Lemma restore_curMsgID id st : curMsgID (restore id st).1 = curMsgID st.
Proof. by rewrite restore_eq. Qed.

Lemma restoreOld_curMsgID keys st :
  curMsgID (restoreOld keys st).1 = curMsgID st.
Proof.
  revert st. induction keys as [|id keys IH]; intros st; simpl; [done|].
  destruct (curMsgID st <=? id); [done|].
  pose proof (restore_curMsgID id st) as H1.
  destruct (restore id st) as [st1 out1].
  specialize (IH st1).
  destruct (restoreOld keys st1) as [st2 out2]. simpl in *. congruence.
Qed.

Lemma afterResponse_curMsgID m st :
  curMsgID (afterResponse m st).1 = ID m.
Proof.
  unfold afterResponse.
  pose proof (restore_curMsgID (ID m)
                (mkOrder (ID m) (pushDelayMID st) (pushDelay st))) as H1.
  destruct (restore (ID m) _) as [st1 out1]. simpl in H1.
  case_bool_decide; [done|].
  pose proof (restoreOld_curMsgID (sortedKeys (pushDelay st1)) st1) as H2.
  destruct (restoreOld _ st1) as [st2 out2]. simpl in *. congruence.
Qed.

Lemma orderedMsg_curMsgID st p m :
  curMsgID (orderedMsg st p m).1 =
    if bool_decide (Typ m = message.Response) then ID m else curMsgID st.
Proof.
  unfold orderedMsg.
  destruct (Typ m) eqn:T; simpl;
    repeat case_bool_decide; try done; simpl.
  - pose proof (afterResponse_curMsgID m st) as H1.
    by destruct (afterResponse _ st) as [st' out].
  - destruct (0 <? ID m); simpl;
      [destruct (curMsgID st <? ID m); simpl|];
      try done; by destruct (0 <? pushDelayMID st).
Qed.

(** *** The sorted key list *)

Lemma StronglySorted_le_lt (l : list N) :
  StronglySorted N.le l → NoDup l → StronglySorted N.lt l.
Proof.
  induction 1 as [|k l Hs IH Hall]; intros Hnd; constructor.
  - apply IH. by apply NoDup_cons in Hnd as [_ ?].
  - apply NoDup_cons in Hnd as [Hk _].
    rewrite Forall_forall in Hall |- *. intros x Hx.
    specialize (Hall x Hx). assert (x ≠ k) by (intros ->; done). lia.
Qed.

Lemma sortedKeys_perm pd : sortedKeys pd ≡ₚ (map_to_list pd).*1.
Proof. apply merge_sort_Permutation. Qed.

Lemma sortedKeys_sorted pd : StronglySorted N.lt (sortedKeys pd).
Proof.
  apply StronglySorted_le_lt.
  - apply (StronglySorted_merge_sort N.le).
  - rewrite sortedKeys_perm. apply NoDup_fst_map_to_list.
Qed.

Lemma elem_of_sortedKeys pd k : k ∈ sortedKeys pd ↔ is_Some (pd !! k).
Proof.
  rewrite sortedKeys_perm, list_elem_of_fmap. split.
  - intros [[k' v] [-> Hin]]. apply elem_of_map_to_list in Hin. by exists v.
  - intros [v Hv]. exists (k, v). split; [done|]. by apply elem_of_map_to_list.
Qed.

Lemma StronglySorted_filter_lt (P : N → Prop) `{∀ k, Decision (P k)} keys :
  StronglySorted N.lt keys → StronglySorted N.lt (filter P keys).
Proof.
  induction 1 as [|k keys Hs IH Hall]; [constructor|].
  rewrite filter_cons. case_decide; [|done].
  constructor; [done|].
  rewrite Forall_forall in Hall |- *. intros x Hx.
  apply list_elem_of_filter in Hx as [_ Hx]. auto.
Qed.

(** *** What the walk over the sorted keys releases *)

Lemma filter_below_nil (c : N) (l : list N) :
  Forall (λ k, c ≤ k) l → filter (λ k, k < c) l = [].
Proof.
  induction 1 as [|k l Hk _ IH]; [done|].
  rewrite filter_cons_False by lia. done.
Qed.

(** On an ascending key list the walk that stops at the first key
    [>= curMsgID] visits exactly the keys below [curMsgID]. *)
Lemma restoreOld_out keys st :
  StronglySorted N.lt keys →
  (restoreOld keys st).2 =
    mjoin ((λ k, default [] (pushDelay st !! k))
             <$> filter (λ k, k < curMsgID st) keys).
Proof.
  revert st. induction keys as [|id keys IH]; intros st Hs; simpl; [done|].
  apply StronglySorted_inv in Hs as [Hs Hall].
  destruct (N.leb_spec (curMsgID st) id) as [Hge|Hlt]; simpl.
  - rewrite filter_cons_False by lia.
    rewrite filter_below_nil; [done|].
    eapply Forall_impl; [exact Hall|]. simpl. lia.
  - rewrite filter_cons_True by done.
    rewrite restore_eq.
    specialize (IH (mkOrder (curMsgID st)
      (if pushDelay st !! id is Some _ then 0 else pushDelayMID st)
      (delete id (pushDelay st))) Hs).
    destruct (restoreOld keys _) as [st2 out2]. simpl in *.
    rewrite IH. f_equal. f_equal.
    apply Forall_fmap_ext. apply Forall_forall. intros k Hk.
    apply list_elem_of_filter in Hk as [_ Hk].
    rewrite Forall_forall in Hall. specialize (Hall k Hk).
    rewrite lookup_delete_ne by lia. done.
Qed.

Lemma restoreOld_pushDelay keys st k :
  StronglySorted N.lt keys →
  pushDelay (restoreOld keys st).1 !! k =
    if decide (k ∈ keys ∧ k < curMsgID st) then None else pushDelay st !! k.
Proof.
  revert st. induction keys as [|id keys IH]; intros st Hs;
    cbn [restoreOld fst].
  { destruct (decide (k ∈ [] ∧ k < curMsgID st)) as [[H _]|_]; [|done].
    by apply elem_of_nil in H. }
  apply StronglySorted_inv in Hs as [Hs Hall].
  rewrite Forall_forall in Hall.
  destruct (N.leb_spec (curMsgID st) id) as [Hge|Hlt]; cbn [fst].
  - destruct (decide (k ∈ id :: keys ∧ k < curMsgID st)) as [[H Hk]|_]; [|done].
    apply elem_of_cons in H as [->|H]; [lia|]. specialize (Hall k H). lia.
  - rewrite restore_eq.
    specialize (IH (mkOrder (curMsgID st)
      (if pushDelay st !! id is Some _ then 0 else pushDelayMID st)
      (delete id (pushDelay st))) Hs).
    destruct (restoreOld keys _) as [st2 out2]. cbn [fst curMsgID pushDelay] in *.
    rewrite IH. destruct (decide (k = id)) as [->|Hne].
    + rewrite lookup_delete_eq.
      rewrite (decide_True (P := id ∈ id :: keys ∧ _)); [by case_decide|].
      split; [apply list_elem_of_here|done].
    + rewrite lookup_delete_ne by done.
      apply decide_ext. rewrite elem_of_cons.
      split; [intros [? ?]; auto | intros [[?|?] ?]; [done | auto]].
Qed.

Lemma sortedKeys_empty : sortedKeys ∅ = [].
Proof. unfold sortedKeys. by rewrite map_to_list_empty. Qed.

(** The guard [len(a.pushDelay) > 0] only skips a walk over no keys. *)
Lemma afterResponse_eq m st :
  afterResponse m st =
    let st1 := mkOrder (ID m)
                 (if pushDelay st !! ID m is Some _ then 0 else pushDelayMID st)
                 (delete (ID m) (pushDelay st)) in
    ((restoreOld (sortedKeys (pushDelay st1)) st1).1,
     default [] (pushDelay st !! ID m)
       ++ (restoreOld (sortedKeys (pushDelay st1)) st1).2).
Proof.
  unfold afterResponse. rewrite restore_eq. cbn [curMsgID pushDelay pushDelayMID].
  case_bool_decide as He.
  - cbn [pushDelay] in He. rewrite He, sortedKeys_empty. cbn.
    by rewrite app_nil_r.
  - cbn zeta. by destruct (restoreOld _ _).
Qed.

Lemma afterResponse_out m st :
  (afterResponse m st).2 =
    default [] (pushDelay st !! ID m)
      ++ mjoin ((λ k, default [] (pushDelay st !! k))
                  <$> filter (λ k, k < ID m)
                        (sortedKeys (delete (ID m) (pushDelay st)))).
Proof.
  rewrite afterResponse_eq. cbn [snd pushDelay]. f_equal.
  rewrite restoreOld_out by apply sortedKeys_sorted.
  cbn [curMsgID pushDelay]. f_equal.
  apply Forall_fmap_ext. apply Forall_forall. intros k Hk.
  apply list_elem_of_filter in Hk as [Hk _].
  rewrite lookup_delete_ne by lia. done.
Qed.

Lemma afterResponse_pushDelay m st k :
  pushDelay (afterResponse m st).1 !! k =
    if decide (ID m < k) then pushDelay st !! k else None.
Proof.
  rewrite afterResponse_eq. cbn [fst pushDelay].
  rewrite restoreOld_pushDelay by apply sortedKeys_sorted.
  cbn [curMsgID pushDelay].
  destruct (decide (k ∈ _ ∧ k < ID m)) as [[_ Hk]|Hn].
  - rewrite decide_False by lia. done.
  - destruct (decide (ID m < k)) as [Hlt|Hge].
    + rewrite lookup_delete_ne by lia. done.
    + destruct (decide (k = ID m)) as [->|Hne]; [apply lookup_delete_eq|].
      destruct (delete (ID m) (pushDelay st) !! k) eqn:E; [|done].
      exfalso. apply Hn. split; [|lia]. apply elem_of_sortedKeys. by eexists.
Qed.

Lemma orderedMsg_response st r m :
  Typ m = message.Response →
  orderedMsg st r m = ((afterResponse m st).1, r :: (afterResponse m st).2).
Proof.
  intros T. unfold orderedMsg. rewrite T. simpl.
  by destruct (afterResponse _ st).
Qed.

(** *** Nothing is lost or duplicated *)

Lemma pending_delete pd k val :
  pd !! k = Some val → pending pd ≡ₚ val ++ pending (delete k pd).
Proof.
  intros Hk. unfold pending.
  rewrite <- (map_to_list_delete pd k val Hk). done.
Qed.

Lemma pending_insert_fresh pd k val :
  pd !! k = None → pending (<[k := val]> pd) ≡ₚ val ++ pending pd.
Proof.
  intros Hk. unfold pending. rewrite (map_to_list_insert pd k val Hk). done.
Qed.

Lemma pending_delay pd k p : pending (delay k p pd) ≡ₚ p :: pending pd.
Proof.
  unfold delay. rewrite <- insert_delete_eq.
  rewrite pending_insert_fresh by apply lookup_delete_eq.
  destruct (pd !! k) as [val|] eqn:E; simpl.
  - rewrite (pending_delete pd k val E).
    rewrite <- app_assoc. simpl. by rewrite <- Permutation_middle.
  - by rewrite delete_id.
Qed.

Lemma restore_perm id st :
  (restore id st).2 ++ pending (pushDelay (restore id st).1)
    ≡ₚ pending (pushDelay st).
Proof.
  unfold restore. destruct (pushDelay st !! id) as [val|] eqn:E; simpl; [|done].
  by rewrite <- pending_delete.
Qed.

Lemma restoreOld_perm keys st :
  (restoreOld keys st).2 ++ pending (pushDelay (restoreOld keys st).1)
    ≡ₚ pending (pushDelay st).
Proof.
  revert st. induction keys as [|id keys IH]; intros st; simpl; [done|].
  destruct (curMsgID st <=? id); [done|].
  pose proof (restore_perm id st) as H1.
  destruct (restore id st) as [st1 out1].
  specialize (IH st1).
  destruct (restoreOld keys st1) as [st2 out2]. simpl in *.
  by rewrite <- app_assoc, IH.
Qed.

Lemma afterResponse_perm m st :
  (afterResponse m st).2 ++ pending (pushDelay (afterResponse m st).1)
    ≡ₚ pending (pushDelay st).
Proof.
  unfold afterResponse.
  pose proof (restore_perm (ID m)
                (mkOrder (ID m) (pushDelayMID st) (pushDelay st))) as H1.
  destruct (restore (ID m) _) as [st1 out1]. simpl in H1.
  case_bool_decide; [done|].
  pose proof (restoreOld_perm (sortedKeys (pushDelay st1)) st1) as H2.
  destruct (restoreOld _ st1) as [st2 out2]. simpl in *.
  by rewrite <- app_assoc, H2.
Qed.

Lemma orderedMsg_perm st p m :
  (orderedMsg st p m).2 ++ pending (pushDelay (orderedMsg st p m).1)
    ≡ₚ p :: pending (pushDelay st).
Proof.
  unfold orderedMsg.
  destruct (_ && _ && _); [apply pending_delay|].
  destruct (_ && _); [apply pending_delay|].
  case_bool_decide; [|done].
  pose proof (afterResponse_perm m st) as H1.
  destruct (afterResponse _ st) as [st' out]. simpl in *. by rewrite H1.
Qed.

(** *** Runs of the loop *)

Lemma ordered_cons_Some st p items st' out :
  ordered st (p :: items) = Some (st', out) ↔
  ∃ m out1 out2,
    pw_msg p = Some m
    ∧ ordered (orderedMsg st p m).1 items = Some (st', out2)
    ∧ (orderedMsg st p m).2 = out1 ∧ out = out1 ++ out2.
Proof.
  simpl. unfold orderedIter. split.
  - destruct (pw_msg p) as [m|]; [|done].
    destruct (orderedMsg st p m) as [st1 out1] eqn:E1. simpl.
    destruct (ordered st1 items) as [[st2 out2]|] eqn:E; [|done].
    intros [= <- <-]. exists m, out1, out2. by rewrite E1.
  - intros (m & out1 & out2 & -> & Hrest & <- & ->).
    destruct (orderedMsg st p m) as [st1 out1]. simpl in *.
    by rewrite Hrest.
Qed.

Lemma ordered_app_Some st l1 l2 st' out :
  ordered st (l1 ++ l2) = Some (st', out) ↔
  ∃ st1 out1 out2,
    ordered st l1 = Some (st1, out1)
    ∧ ordered st1 l2 = Some (st', out2) ∧ out = out1 ++ out2.
Proof.
  revert st out. induction l1 as [|p l1 IH]; intros st out.
  - simpl. split.
    + intros H. by exists st, [], out.
    + by intros (st1 & out1 & out2 & [= <- <-] & H & ->).
  - rewrite <- app_comm_cons, ordered_cons_Some. split.
    + intros (m & o1 & o2 & Hm & Hrest & Ho1 & ->).
      apply IH in Hrest as (st1 & o3 & o4 & H1 & H2 & ->).
      exists st1, (o1 ++ o3), o4. split; [|split; [done|by rewrite app_assoc]].
      apply ordered_cons_Some. by exists m, o1, o3.
    + intros (st1 & o1 & o2 & H1 & H2 & ->).
      apply ordered_cons_Some in H1 as (m & o3 & o4 & Hm & Hrest & Ho3 & ->).
      exists m, o3, (o4 ++ o2). split; [done|]. split; [|by rewrite app_assoc].
      apply IH. by exists st1, o4, o2.
Qed.

Lemma ordered_perm st items st' out :
  ordered st items = Some (st', out) →
  out ++ pending (pushDelay st') ≡ₚ items ++ pending (pushDelay st).
Proof.
  revert st out. induction items as [|p items IH]; intros st out.
  - by intros [= <- <-].
  - intros (m & o1 & o2 & Hm & Hrest & Ho1 & ->)%ordered_cons_Some.
    apply IH in Hrest. rewrite <- app_assoc, Hrest.
    rewrite (Permutation_app_comm items), app_assoc, <- Ho1, orderedMsg_perm.
    simpl. by rewrite (Permutation_app_comm items).
Qed.

(** Every item taken from [chOrder] is forwarded at most once. *)
Lemma ordered_NoDup items st' out :
  ordered newOrder items = Some (st', out) → NoDup items → NoDup out.
Proof.
  intros H%ordered_perm Hnd.
  unfold pending in H at 2. simpl in H.
  rewrite map_to_list_empty in H. simpl in H. rewrite app_nil_r in H.
  rewrite <- H in Hnd. by apply NoDup_app in Hnd as [? _].
Qed.

Lemma ordered_total st items :
  Forall hasMsg items → is_Some (ordered st items).
Proof.
  revert st. induction items as [|p items IH]; intros st Hall; [by eexists|].
  apply Forall_cons in Hall as [[m Hm] Hall].
  destruct (IH (orderedMsg st p m).1 Hall) as [[st' out] Hrest].
  exists (st', (orderedMsg st p m).2 ++ out).
  apply ordered_cons_Some. by exists m, (orderedMsg st p m).2, out.
Qed.

(** *** A deferred push stays in its bucket until a response reaches it *)

Lemma delay_keeps_bucket pd k q p M val :
  pd !! M = Some val → p ∈ val →
  ∃ val', delay k q pd !! M = Some val' ∧ p ∈ val'.
Proof.
  intros HM Hp. unfold delay. destruct (decide (k = M)) as [->|Hne].
  - rewrite lookup_insert_eq, HM. eexists; split; [done|].
    apply elem_of_app. by left.
  - rewrite lookup_insert_ne by done. eauto.
Qed.

Lemma orderedMsg_keeps_bucket st q m p M :
  inBucket p M st →
  (Typ m = message.Response → ID m < M) →
  inBucket p M (orderedMsg st q m).1.
Proof.
  intros (val & HM & Hp) Hq. unfold inBucket, orderedMsg.
  destruct (_ && _ && _); [by eapply delay_keeps_bucket|].
  destruct (_ && _); [by eapply delay_keeps_bucket|].
  case_bool_decide as T; [|by eauto].
  pose proof (afterResponse_pushDelay m st M) as H1.
  destruct (afterResponse _ st) as [st' out]. simpl in *.
  rewrite decide_True in H1 by auto. rewrite H1. eauto.
Qed.

Lemma ordered_keeps_bucket st items st' out p M :
  ordered st items = Some (st', out) →
  Forall (respBelow M) items → inBucket p M st → inBucket p M st'.
Proof.
  revert st out. induction items as [|q items IH]; intros st out.
  - by intros [= <- <-].
  - intros (m & o1 & o2 & Hm & Hrest & _ & _)%ordered_cons_Some.
    intros [Hq Hall]%Forall_cons Hin.
    eapply IH; [exact Hrest|done|].
    apply orderedMsg_keeps_bucket; [done|]. by apply Hq.
Qed.

Lemma ordered_cur_below st items st' out M :
  ordered st items = Some (st', out) →
  Forall (respBelow M) items → curMsgID st < M → curMsgID st' < M.
Proof.
  revert st out. induction items as [|q items IH]; intros st out.
  - by intros [= <- <-].
  - intros (m & o1 & o2 & Hm & Hrest & _ & _)%ordered_cons_Some.
    intros [Hq Hall]%Forall_cons Hc.
    eapply IH; [exact Hrest|done|].
    rewrite orderedMsg_curMsgID. case_bool_decide; [by apply Hq|done].
Qed.

Lemma orderedMsg_defers st p m :
  Typ m = message.Push → 0 < ID m → curMsgID st < ID m →
  (orderedMsg st p m).2 = [] ∧ inBucket p (ID m) (orderedMsg st p m).1.
Proof.
  intros T H0 Hc. unfold orderedMsg. rewrite T.
  rewrite bool_decide_eq_true_2 by done.
  destruct (N.ltb_spec 0 (ID m)); [|lia].
  destruct (N.ltb_spec (curMsgID st) (ID m)); [|lia].
  simpl. split; [done|]. unfold inBucket, delay. simpl.
  rewrite lookup_insert_eq. eexists; split; [done|].
  apply elem_of_app. right. apply list_elem_of_here.
Qed.

Lemma orderedMsg_releases st r m p :
  Typ m = message.Response → inBucket p (ID m) st →
  ∃ o2 o3, (orderedMsg st r m).2 = r :: o2 ++ p :: o3.
Proof.
  intros T (val & HM & Hp).
  rewrite orderedMsg_response by done. cbn [snd].
  rewrite afterResponse_out, HM. simpl.
  apply list_elem_of_split in Hp as (o2 & o3 & ->).
  exists o2. eexists. rewrite <- app_assoc. simpl. done.
Qed.

(** *** The claims about the ordering stage *)

Lemma msgTyp_Some p m t : pw_msg p = Some m → msgTyp p = Some t → Typ m = t.
Proof. unfold msgTyp. intros ->. simpl. congruence. Qed.

Lemma msgID_Some p m k : pw_msg p = Some m → msgID p = Some k → ID m = k.
Proof. unfold msgID. intros ->. simpl. congruence. Qed.

(** C1 (ordering contract, as the code has it).  The items taken from
    [chOrder] are distinct and each carries a message.  If a push with id
    [M > 0] is taken before a response with id [M], and no response with an
    id of [M] or more is taken before that response, then the run of the
    ordering loop completes and the push is forwarded strictly after the
    response. *)
Theorem ordering_contract_gated pre p mid r post M :
  Forall hasMsg (pre ++ p :: mid ++ r :: post) →
  NoDup (pre ++ p :: mid ++ r :: post) →
  msgTyp p = Some message.Push → msgID p = Some M →
  msgTyp r = Some message.Response → msgID r = Some M →
  0 < M →
  Forall (respBelow M) (pre ++ mid) →
  ∃ st' out,
    ordered newOrder (pre ++ p :: mid ++ r :: post) = Some (st', out)
    ∧ forwardedAfter out r p.
Proof.
  intros Hmsg Hnd Tp Ip Tr Ir Hpos Hall.
  apply Forall_app in Hall as [Hbpre Hbmid].
  destruct (ordered_total newOrder _ Hmsg) as [[st' out] Hrun].
  exists st', out. split; [done|].
  pose proof (ordered_NoDup _ _ _ Hrun Hnd) as Hndo.
  apply ordered_app_Some in Hrun as (s1 & opre & o1 & Hpre & Hrun & ->).
  apply ordered_cons_Some in Hrun as (mp & op & o2 & Hmp & Hrun & Hop & ->).
  apply ordered_app_Some in Hrun as (s3 & omid & o3 & Hmid & Hrun & ->).
  apply ordered_cons_Some in Hrun as (mr & or & opost & Hmr & Hpost & Hor & ->).
  pose proof (msgTyp_Some _ _ _ Hmp Tp) as Tmp.
  pose proof (msgID_Some _ _ _ Hmp Ip) as Imp.
  pose proof (msgTyp_Some _ _ _ Hmr Tr) as Tmr.
  pose proof (msgID_Some _ _ _ Hmr Ir) as Imr.
  assert (curMsgID s1 < M) as Hc by (by eapply ordered_cur_below).
  destruct (orderedMsg_defers s1 p mp Tmp) as [Hout Hin]; [lia|lia|].
  rewrite Hout in Hop. subst op. rewrite Imp in Hin.
  pose proof (ordered_keeps_bucket _ _ _ _ p M Hmid Hbmid Hin) as Hin3.
  rewrite <- Imr in Hin3.
  destruct (orderedMsg_releases s3 r mr p Tmr Hin3) as (a & b & Hrel).
  rewrite Hrel in Hor. subst or.
  exists (opre ++ omid), a, (b ++ opost).
  assert (opre ++ [] ++ omid ++ (r :: a ++ p :: b) ++ opost
          = (opre ++ omid) ++ r :: a ++ p :: b ++ opost) as E.
  { simpl. by rewrite <- !app_assoc. }
  rewrite E in Hndo |- *. split; [done|].
  apply NoDup_app in Hndo as (_ & Hdisj & _). intros Hp.
  apply (Hdisj p Hp). apply elem_of_cons. right.
  apply elem_of_app. right. apply list_elem_of_here.
Qed.

(** C2 (release on a response, as the code has it).  Processing a response
    with id [M] forwards the response, then the items of bucket [M] (if
    there is one), then the buckets with a key below [M] in ascending key
    order, each bucket in insertion order; [curMsgID] becomes [M], and
    exactly the buckets with a key above [M] remain. *)
Theorem release_on_response st r m :
  pw_msg r = Some m → Typ m = message.Response →
  ∃ (st' : orderState) (ks : list N),
    StronglySorted N.lt ks
    ∧ (∀ k, k ∈ ks ↔ is_Some (pushDelay st !! k) ∧ k < ID m)
    ∧ orderedIter st r =
        Some (st', r :: default [] (pushDelay st !! ID m)
                     ++ mjoin ((λ k, default [] (pushDelay st !! k)) <$> ks))
    ∧ (∀ k, pushDelay st' !! k =
             if decide (ID m < k) then pushDelay st !! k else None)
    ∧ curMsgID st' = ID m.
Proof.
  intros Hm T.
  exists (afterResponse m st).1,
         (filter (λ k, k < ID m) (sortedKeys (delete (ID m) (pushDelay st)))).
  split; [|split; [|split; [|split]]].
  - apply StronglySorted_filter_lt, sortedKeys_sorted.
  - intros k. rewrite list_elem_of_filter, elem_of_sortedKeys.
    split.
    + intros [Hk [v Hv]]. rewrite lookup_delete_ne in Hv by lia. eauto.
    + intros [[v Hv] Hk]. split; [done|].
      rewrite lookup_delete_ne by lia. eauto.
  - unfold orderedIter. rewrite Hm, orderedMsg_response by done.
    by rewrite afterResponse_out.
  - intros k. apply afterResponse_pushDelay.
  - apply afterResponse_curMsgID.
Qed.

(** C3 (curMsgID, as the code has it).  An iteration of the ordering loop
    leaves [curMsgID] alone unless the item is a response, and then sets it
    to the id of that response, whether that id is larger or smaller than
    the value before. *)
Theorem curMsgID_follows_responses st p :
  curMsgID ∘ fst <$> orderedIter st p =
    (λ m, match Typ m with
          | message.Response => ID m
          | _ => curMsgID st
          end) <$> pw_msg p.
Proof.
  unfold orderedIter. destruct (pw_msg p) as [m|]; [|done]. simpl.
  rewrite orderedMsg_curMsgID. by destruct (Typ m).
Qed.
End OrderingStage.

(** The items of a concrete list are pairwise different. *)
Ltac distinct_items :=
  repeat (apply NoDup_cons_2;
          [ let H := fresh in
            intros H;
            repeat (apply elem_of_cons in H as [H|H]; [discriminate H|]);
            by apply elem_of_nil in H
          | ]);
  apply NoDup_nil_2.

Ltac all_items tac :=
  repeat (apply List.Forall_cons; [tac|]); apply List.Forall_nil.

Lemma ordering_contract_gated_witness :
  ∃ st' out,
    ordered newOrder ([resp2] ++ push7 :: [push0; resp5] ++ resp7 :: [push7'])
      = Some (st', out)
    ∧ forwardedAfter out resp7 push7.
Proof.
  apply (ordering_contract_gated [resp2] push7 [push0; resp5] resp7 [push7'] 7).
  - simpl. all_items ltac:(by eexists).
  - simpl. distinct_items.
  - reflexivity.
  - reflexivity.
  - reflexivity.
  - reflexivity.
  - reflexivity.
  - simpl. all_items ltac:(intros m [= <-] _; reflexivity).
Defined.

(** C1 as the specification states it fails: the push with id 3 is taken
    before the response with id 3, yet the response with id 5, taken in
    between, releases bucket 3, and the push is forwarded first. *)
Lemma ordering_contract_counterexample :
  ordered newOrder [push3; resp5; resp3]
    = Some (mkOrder 3 0 ∅, [resp5; push3; resp3])
  ∧ ¬ forwardedAfter [resp5; push3; resp3] resp3 push3.
Proof.
  split; [vm_compute; reflexivity|].
  intros (o1 & o2 & o3 & H & Hn).
  destruct o1 as [|x1 [|x2 [|x3 o1]]]; simpl in H.
  - discriminate H.
  - discriminate H.
  - injection H as <- <- _. apply Hn.
    apply elem_of_cons. right. apply list_elem_of_here.
  - injection H as _ _ _ H. by destruct o1.
Qed.

Lemma release_on_response_witness :
  ∃ (st' : orderState) (ks : list N),
    StronglySorted N.lt ks
    ∧ (∀ k, k ∈ ks ↔ is_Some (pushDelay stBuckets235 !! k) ∧ k < 5)
    ∧ orderedIter stBuckets235 resp5 =
        Some (st', resp5 :: default [] (pushDelay stBuckets235 !! 5)
                     ++ mjoin ((λ k, default [] (pushDelay stBuckets235 !! k)) <$> ks))
    ∧ (∀ k, pushDelay st' !! k =
             if decide (5 < k) then pushDelay stBuckets235 !! k else None)
    ∧ curMsgID st' = 5.
Proof.
  apply (release_on_response stBuckets235 resp5
           (mkMessage message.Response 5 "room.five" [] false));
    reflexivity.
Defined.

(** C2 as the specification states it fails: with buckets 2, 3 and 5 and a
    response with id 5 the code releases bucket 5 first and then buckets 2
    and 3, not buckets 2, 3, 5 in ascending order. *)
Lemma release_order_counterexample :
  snd <$> orderedIter stBuckets235 resp5 = Some [resp5; push5; push2; push3]
  ∧ releasedAscending stBuckets235 resp5 5 = [resp5; push2; push3; push5]
  ∧ snd <$> orderedIter stBuckets235 resp5
      ≠ Some (releasedAscending stBuckets235 resp5 5).
Proof.
  assert (snd <$> orderedIter stBuckets235 resp5
          = Some [resp5; push5; push2; push3]) as E1
    by (vm_compute; reflexivity).
  assert (releasedAscending stBuckets235 resp5 5 = [resp5; push2; push3; push5]) as E2
    by (vm_compute; reflexivity).
  split; [exact E1|]. split; [exact E2|]. rewrite E1, E2. discriminate.
Qed.

(** C3 as the specification states it fails: after the response with id 5
    a late response with id 3 lowers [curMsgID] from 5 to 3. *)
Lemma curMsgID_decreases_counterexample :
  curMsgID stAfterResp5 = 5
  ∧ orderedIter stAfterResp5 resp3 = Some (mkOrder 3 0 ∅, [resp3])
  ∧ ¬ (curMsgID stAfterResp5 ≤ curMsgID (mkOrder 3 0 ∅)).
Proof.
  split; [reflexivity|]. split; [vm_compute; reflexivity|].
  simpl. lia.
Qed.

(** ** Lifecycle: [Close] *)

Section Lifecycle.
Context {Payload : Type}.
Implicit Types (a : agentImpl Payload) (cbs : list callback).

Lemma emit_emits e a : emit e a = emits [e] a.
Proof. by destruct a. Qed.

Lemma emits_emits evs1 evs2 a : emits evs2 (emits evs1 a) = emits (evs1 ++ evs2) a.
Proof. destruct a; simpl. by rewrite app_assoc. Qed.

Lemma emits_nil a : emits [] a = a.
Proof. destruct a; simpl. by rewrite app_nil_r. Qed.

Lemma onSessionClosed_emits a :
  onSessionClosed a = emits (onSessionClosedEvents a) a.
Proof.
  unfold onSessionClosed. generalize (onSessionClosedEvents a) as evs.
  intros evs. revert a. induction evs as [|e evs IH]; intros a; simpl.
  - by rewrite emits_nil.
  - by rewrite IH, emit_emits, emits_emits.
Qed.

Lemma reportChannelSize_emits a : ∃ evs, reportChannelSize a = emits evs a.
Proof.
  unfold reportChannelSize.
  generalize (chSendCapacity a) at 2 as cap. intros cap.
  assert (∃ evs0, (if (chSendCapacity a =? 0)%Z
                   then emit (LogWarn "chSend is at maximum capacity") a
                   else a) = emits evs0 a) as [evs0 ->].
  { destruct (_ =? _)%Z; [|exists []; by rewrite emits_nil].
    eexists. apply emit_emits. }
  generalize (metricsReporters a) as mrs. intros mrs. revert evs0.
  induction mrs as [|mr mrs IH]; intros evs0; simpl; [by eexists|].
  destruct (ReportGaugeErr mr);
    rewrite !emit_emits, !emits_emits; apply IH.
Qed.

Lemma runCallbacks_no_panic ev cbs :
  Forall (λ cb, cb_panics cb = false) cbs →
  runCallbacks ev cbs = (ev <$> cbs, false).
Proof.
  induction 1 as [|cb cbs Hcb _ IH]; simpl; [done|].
  by rewrite Hcb, IH.
Qed.

Lemma runCallbacks_prefix ev cbs :
  (runCallbacks ev cbs).1 `prefix_of` (ev <$> cbs).
Proof.
  induction cbs as [|cb cbs IH]; simpl; [done|].
  destruct (cb_panics cb); simpl.
  - apply (prefix_cons _ []), prefix_nil.
  - destruct (runCallbacks ev cbs) as [evs pn]. simpl in *.
    by apply prefix_cons.
Qed.

Lemma runCallbacks_completes ev cbs :
  (runCallbacks ev cbs).2 = false → (runCallbacks ev cbs).1 = ev <$> cbs.
Proof.
  induction cbs as [|cb cbs IH]; simpl; [done|].
  destruct (cb_panics cb); simpl; [done|].
  destruct (runCallbacks ev cbs) as [evs pn]. simpl in *.
  intros ->. by rewrite IH.
Qed.

Lemma filter_isCallback_fmap (ev : callback → event) cbs :
  (∀ cb, isCallback (ev cb) = true) →
  filter (λ e, isCallback e = true) (ev <$> cbs) = ev <$> cbs.
Proof.
  intros Hev. induction cbs as [|cb cbs IH]; [done|].
  rewrite fmap_cons, filter_cons_True by apply Hev. by rewrite IH.
Qed.

Lemma filter_isCallback_prefix (ev : callback → event) evs cbs :
  (∀ cb, isCallback (ev cb) = true) →
  evs `prefix_of` (ev <$> cbs) →
  filter (λ e, isCallback e = true) evs = evs.
Proof.
  intros Hev [k Hk].
  assert (Forall (λ e, isCallback e = true) (ev <$> cbs)) as Hall.
  { apply Forall_fmap, Forall_forall. intros cb _. apply Hev. }
  rewrite Hk in Hall. apply Forall_app in Hall as [Hall _].
  clear Hk. induction Hall as [|e evs He _ IH]; [done|].
  rewrite filter_cons_True by done. by rewrite IH.
Qed.

(** The callbacks [onSessionClosed] invokes are an initial segment of the
    session's callbacks followed by the pool's. *)
Lemma onSessionClosed_callbacks a :
  filter (λ e, isCallback e = true) (onSessionClosedEvents a)
    `prefix_of` allCallbacks a.
Proof.
  unfold onSessionClosedEvents, allCallbacks.
  pose proof (runCallbacks_prefix SessionCallback (OnCloseCallbacks (Session a))) as P1.
  pose proof (runCallbacks_completes SessionCallback (OnCloseCallbacks (Session a))) as C1.
  destruct (runCallbacks SessionCallback _) as [evs1 pn1]. simpl in *.
  destruct pn1.
  - rewrite filter_app, (filter_isCallback_prefix SessionCallback _ _ (λ _, eq_refl) P1).
    rewrite filter_cons_False by done. rewrite filter_nil, app_nil_r.
    by apply prefix_app_r.
  - rewrite (C1 eq_refl).
    pose proof (runCallbacks_prefix PoolCallback
                  (SessionCloseCallbacks (sessionPool a))) as P2.
    destruct (runCallbacks PoolCallback _) as [evs2 pn2]. simpl in *.
    rewrite !filter_app.
    rewrite (filter_isCallback_fmap SessionCallback) by done.
    rewrite (filter_isCallback_prefix PoolCallback _ _ (λ _, eq_refl) P2).
    replace (filter _ (if pn2 then _ else _)) with (@nil event)
      by (by destruct pn2).
    rewrite app_nil_r. by apply prefix_app.
Qed.

Lemma onSessionClosed_no_panic a :
  noCallbackPanics a → onSessionClosedEvents a = allCallbacks a.
Proof.
  unfold noCallbackPanics, onSessionClosedEvents, allCallbacks.
  intros [H1 H2]%Forall_app.
  rewrite (runCallbacks_no_panic _ _ H1), (runCallbacks_no_panic _ _ H2).
  by rewrite app_nil_r.
Qed.

(** After [Close] the state is [Closed], whatever happened. *)
Lemma Close_status a : GetStatus (agentOf (Close a)) = StatusClosed.
Proof.
  unfold Close. case_bool_decide as Hs; [done|].
  rewrite onSessionClosed_emits.
  destruct a as [s sp die co cs sh sw so c enc hb la me mbs mr ser st ord tr].
  simpl in *. destruct die; [done|]. destruct sw; [done|].
  destruct so; [done|]. by destruct sh.
Qed.

Lemma Close_closed a :
  GetStatus a = StatusClosed → Close a = Returned a (Some ErrCloseClosedSession).
Proof. intros Hs. unfold Close. by rewrite bool_decide_eq_true_2. Qed.

Lemma Close_alive a :
  alive a →
  ∃ a', Close a = Returned a' (conn_CloseErr (conn a))
    ∧ GetStatus a' = StatusClosed ∧ channelsClosed a'
    ∧ trace a' = trace a ++ closeEvents a
    ∧ chOrder a' = chOrder a ∧ chSend a' = chSend a ∧ order a' = order a.
Proof.
  intros [Hs (Hd & Hw & Ho & Hh)]. unfold Close.
  rewrite bool_decide_eq_false_2 by done.
  rewrite onSessionClosed_emits.
  destruct a as [s sp die co cs sh sw so c enc hb la me mbs mr ser st ord tr].
  simpl in *. subst. simpl. unfold closeConn. simpl.
  eexists. split; [done|]. unfold channelsClosed, closeEvents. simpl.
  repeat split; try done.
  unfold onSessionClosedEvents. simpl.
  rewrite <- !app_assoc. simpl. by rewrite <- ?app_assoc.
Qed.

(** C6 (Close, as the code has it).  On an agent that is alive the first
    [Close] sets the state to [Closed], closes [chStopWrite], [chStopOrder],
    [chStopHeartbeat] and [chDie] in that order, invokes the close
    callbacks of the session and then those of the pool (an initial
    segment of them, all of them when none panics, each once), reports the
    metric, closes the transport and returns what the transport answers.
    A further [Close] returns [ErrCloseClosedSession] and has no effect at
    all: it does not close the transport again. *)
Theorem Close_once a :
  alive a →
  ∃ a',
    Close a = Returned a' (conn_CloseErr (conn a))
    ∧ GetStatus a' = StatusClosed ∧ channelsClosed a'
    ∧ trace a' = trace a ++ closeEvents a
    ∧ filter (λ e, isCallback e = true) (onSessionClosedEvents a)
        `prefix_of` allCallbacks a
    ∧ (noCallbackPanics a → onSessionClosedEvents a = allCallbacks a)
    ∧ Close a' = Returned a' (Some ErrCloseClosedSession).
Proof.
  intros Ha. destruct (Close_alive a Ha) as (a' & HC & Hs & Hch & Ht & _).
  exists a'. do 4 (split; [done|]).
  split; [apply onSessionClosed_callbacks|].
  split; [apply onSessionClosed_no_panic|].
  by apply Close_closed.
Qed.
End Lifecycle.

(** A new agent is alive. *)
Lemma newAgent_alive {Payload : Type} c enc (ser : Serializer Payload)
    hb size me reporters pool s now :
  alive (newAgent c enc ser hb size me reporters pool s now).
Proof. by repeat split. Qed.

Example agent1_alive : alive agent1.
Proof. apply newAgent_alive. Qed.

Example agent1Closed_trace :
  trace agent1Closed =
    [ReportClients; LogDebug "Session closed";
     ChanClose SigStopWrite; ChanClose SigStopOrder;
     ChanClose SigStopHeartbeat; ChanClose SigDie;
     SessionCallback cbLeave; SessionCallback cbAudit; PoolCallback cbPool;
     ReportClients; ConnClose].
Proof. reflexivity. Qed.

Lemma Close_once_witness :
  ∃ a',
    Close agent1 = Returned a' (conn_CloseErr (conn agent1))
    ∧ GetStatus a' = StatusClosed ∧ channelsClosed a'
    ∧ trace a' = trace agent1 ++ closeEvents agent1
    ∧ filter (λ e, isCallback e = true) (onSessionClosedEvents agent1)
        `prefix_of` allCallbacks agent1
    ∧ (noCallbackPanics agent1 → onSessionClosedEvents agent1 = allCallbacks agent1)
    ∧ Close a' = Returned a' (Some ErrCloseClosedSession).
Proof. apply (Close_once agent1). by repeat split. Defined.

(** C6 as the specification states it fails: a second [Close] does not
    close the transport again; it returns the error and leaves the agent,
    its trace included, as it was, with one [ConnClose] in the trace. *)
Lemma Close_again_counterexample :
  GetStatus agent1Closed = StatusClosed
  ∧ Close agent1Closed = Returned agent1Closed (Some ErrCloseClosedSession)
  ∧ trace (agentOf (Close agent1Closed)) ≠ trace agent1Closed ++ [ConnClose]
  ∧ length (filter (λ e, isConnClose e = true)
                   (trace (agentOf (Close agent1Closed)))) = 1%nat.
Proof.
  split; [reflexivity|]. split; [reflexivity|]. split; [|reflexivity].
  vm_compute. discriminate.
Qed.

(** ** Producer entry points: [send], [Push], [ResponseMID] *)

Section Producers.
Context {Payload : Type}.
Implicit Types (a : agentImpl Payload) (pm : pendingMessage Payload).

Lemma alive_emits evs a : alive a → alive (emits evs a).
Proof. by destruct a. Qed.

Lemma chSendCapacity_emits evs a :
  chSendCapacity (emits evs a) = chSendCapacity a.
Proof. by destruct a. Qed.

Lemma closeEvents_emits evs a : closeEvents (emits evs a) = closeEvents a.
Proof. by destruct a. Qed.

(** C4 (shedding, as the code has it).  On an agent that is alive, when
    the spare capacity of [chSend] (the buffer size less the number of
    items waiting for the writer) is observed to be zero, [send] logs the
    warning, runs [Close] and returns nil; the outcome is the same for
    every message, which is neither serialized nor put on [chOrder]. *)
Theorem send_sheds_on_full_chSend a :
  alive a → chSendCapacity a = 0%Z →
  ∃ a',
    (∀ pick pm, send pick a pm = Returned a' None)
    ∧ GetStatus a' = StatusClosed ∧ channelsClosed a'
    ∧ chOrder a' = chOrder a ∧ chSend a' = chSend a
    ∧ trace a' =
        trace (reportChannelSize a)
          ++ LogWarn "the agent is will close as its network is busy"
          :: closeEvents a.
Proof.
  intros Ha Hcap. unfold send.
  destruct (reportChannelSize_emits a) as [evs ->].
  rewrite chSendCapacity_emits, Hcap. simpl.
  rewrite emit_emits, emits_emits.
  match goal with |- context [Close ?x] =>
    destruct (Close_alive x (alive_emits _ _ Ha))
      as (a' & HC & Hs & Hch & Ht & Hco & Hcs & _)
  end.
  exists a'. split; [by intros; rewrite HC|].
  do 2 (split; [done|]).
  split; [by rewrite Hco; destruct a|].
  split; [by rewrite Hcs; destruct a|].
  rewrite Ht, closeEvents_emits. destruct a; simpl.
  by rewrite <- !app_assoc.
Qed.

(** C8 (response to a notify).  On an agent that is not closed
    [ResponseMID] with message id 0 returns [ErrSessionOnNotify] and leaves
    the agent as it was: nothing is put on [chOrder] or [chSend], no state
    changes, no event happens. *)
Theorem ResponseMID_on_notify pick a ctx v isError :
  GetStatus a ≠ StatusClosed →
  ResponseMID pick a ctx 0 v isError = Returned a (Some ErrSessionOnNotify).
Proof.
  intros Hs. unfold ResponseMID. by rewrite bool_decide_eq_false_2.
Qed.

(** *** [Kick] *)

Lemma kickPoll_waits mid waiting a' rest a later :
  a :: later = waiting ++ a' :: rest →
  Forall (λ x, curMsgID (order x) ≤ mid) waiting →
  mid < curMsgID (order a') →
  kickPoll mid a later = kickWrite a'.
Proof.
  revert a later. induction waiting as [|w ws IH]; intros a later Heq Hall Hlt.
  - injection Heq as -> ->. destruct rest; simpl;
      by destruct (N.leb_spec (curMsgID (order a')) mid); [lia|].
  - injection Heq as -> ->. apply Forall_cons in Hall as [Hw Hall].
    destruct (ws ++ a' :: rest) as [|x later'] eqn:E.
    { by destruct ws. }
    simpl. destruct (N.leb_spec (curMsgID (order w)) mid); [|lia].
    by apply IH.
Qed.

Lemma kickPoll_blocked mid a later :
  Forall (λ x, curMsgID (order x) ≤ mid) (a :: later) →
  kickPoll mid a later = Blocked (default a (last later)).
Proof.
  revert a. induction later as [|x later IH]; intros a [Ha Hall]%Forall_cons;
    simpl; (destruct (N.leb_spec (curMsgID (order a)) mid); [|lia]); [done|].
  rewrite IH by done. f_equal. rewrite last_cons. by destruct (last later).
Qed.

Lemma kickWrite_pipeline a :
  chOrder (agentOf (kickWrite a)) = chOrder a
  ∧ chSend (agentOf (kickWrite a)) = chSend a.
Proof.
  unfold kickWrite. destruct (pkt_Encode _ _ _); simpl; by destruct a.
Qed.

(** C5 (kick gating, as the code has it).  On an agent that is not closed,
    with [mid] the message id the relation table of the context gives the
    user of the session: when [mid = 0] the kick packet is encoded and
    written to the transport at once; when [mid > 0] the call polls, tick
    after tick, for as long as [curMsgID <= mid], and it encodes and writes
    the packet at the first test that finds [curMsgID > mid]; as long as
    every test finds [curMsgID <= mid] it is still polling.  The write
    goes to the transport and leaves [chOrder] and [chSend] alone. *)
Theorem Kick_gating a later ctx :
  GetStatus a ≠ StatusClosed →
  (GetRelationMsgIdFromContext ctx (UID (Session a)) = 0 →
     Kick a later ctx = kickWrite a)
  ∧ (∀ waiting a' rest,
       0 < GetRelationMsgIdFromContext ctx (UID (Session a)) →
       a :: later = waiting ++ a' :: rest →
       Forall (λ x, curMsgID (order x)
                      ≤ GetRelationMsgIdFromContext ctx (UID (Session a))) waiting →
       GetRelationMsgIdFromContext ctx (UID (Session a)) < curMsgID (order a') →
       Kick a later ctx = kickWrite a')
  ∧ (0 < GetRelationMsgIdFromContext ctx (UID (Session a)) →
     Forall (λ x, curMsgID (order x)
                    ≤ GetRelationMsgIdFromContext ctx (UID (Session a))) (a :: later) →
     Kick a later ctx = Blocked (default a (last later)))
  ∧ (∀ a' p, pkt_Encode (encoder a') PktKick [] = Ok p →
       kickWrite a' = Returned (emit (ConnWrite p) a') (conn_WriteErr (conn a'))
       ∧ chOrder (emit (ConnWrite p) a') = chOrder a'
       ∧ chSend (emit (ConnWrite p) a') = chSend a').
Proof.
  intros Hs. unfold Kick. rewrite bool_decide_eq_false_2 by done.
  set (mid := GetRelationMsgIdFromContext ctx (UID (Session a))).
  split; [|split; [|split]].
  - intros ->. done.
  - intros waiting a' rest Hpos Heq Hall Hlt.
    destruct (N.ltb_spec 0 mid); [|lia]. by eapply kickPoll_waits.
  - intros Hpos Hall. destruct (N.ltb_spec 0 mid); [|lia].
    by apply kickPoll_blocked.
  - intros a' p Hp. unfold kickWrite. rewrite Hp. by destruct a'.
Qed.

(** C10 (kick after close).  On a closed agent [Kick] returns nil; it only
    logs, it writes nothing to the transport, whereas [Push] and
    [ResponseMID] return [ErrBrokenPipe]. *)
Theorem Kick_after_close a later ctx :
  GetStatus a = StatusClosed →
  Kick a later ctx
    = Returned (emits [LogDebug "can't send kick, session has closed"] a) None
  ∧ filter (λ e, isConnWrite e = true) (trace (agentOf (Kick a later ctx)))
    = filter (λ e, isConnWrite e = true) (trace a)
  ∧ (∀ pick route v, Push pick a ctx route v = Returned a (Some ErrBrokenPipe))
  ∧ (∀ pick mid v isError,
       ResponseMID pick a ctx mid v isError = Returned a (Some ErrBrokenPipe)).
Proof.
  intros Hs. unfold Kick, Push, ResponseMID.
  rewrite bool_decide_eq_true_2 by done. rewrite emit_emits.
  split; [done|]. split; [|done].
  destruct a; simpl. rewrite filter_app.
  rewrite filter_cons_False by done. by rewrite filter_nil, app_nil_r.
Qed.
End Producers.

Example agent1SendFull_alive : alive agent1SendFull.
Proof. by repeat split. Qed.

Lemma send_sheds_on_full_chSend_witness :
  ∃ a',
    (∀ pick pm, send pick agent1SendFull pm = Returned a' None)
    ∧ GetStatus a' = StatusClosed ∧ channelsClosed a'
    ∧ chOrder a' = chOrder agent1SendFull ∧ chSend a' = chSend agent1SendFull
    ∧ trace a' =
        trace (reportChannelSize agent1SendFull)
          ++ LogWarn "the agent is will close as its network is busy"
          :: closeEvents agent1SendFull.
Proof.
  apply (send_sheds_on_full_chSend agent1SendFull); [by repeat split|reflexivity].
Defined.

(** C4 as the specification states it fails: with [chOrder] full and room
    in [chSend] the routine does not shed; it serializes the message and
    parks on the send to [chOrder], and the agent stays open. *)
Lemma send_full_chOrder_counterexample :
  GetStatus agent1OrderFull = StatusStart
  ∧ chOrderCapacity agent1OrderFull = 0%Z
  ∧ chSendCapacity agent1OrderFull = 1%Z
  ∧ send 0 agent1OrderFull pushMessage = Blocked agent1OrderFull
  ∧ GetStatus (agentOf (send 0 agent1OrderFull pushMessage)) ≠ StatusClosed.
Proof. by repeat split. Qed.

Lemma ResponseMID_on_notify_witness :
  ResponseMID 0 agent1 None 0 [] [] = Returned agent1 (Some ErrSessionOnNotify).
Proof. apply (ResponseMID_on_notify 0 agent1 None [] []). discriminate. Defined.

Lemma Kick_gating_witness :
  Kick (agent1Cur 0) [agent1Cur 4; agent1Cur 5] (ctxMid 4) = kickWrite (agent1Cur 5).
Proof.
  destruct (Kick_gating (agent1Cur 0) [agent1Cur 4; agent1Cur 5] (ctxMid 4))
    as (_ & H & _); [discriminate|].
  apply (H [agent1Cur 0; agent1Cur 4] (agent1Cur 5) []).
  - reflexivity.
  - reflexivity.
  - all_items ltac:(vm_compute; discriminate).
  - reflexivity.
Defined.

(** C5 as the specification states it fails: with gating id 4 and
    [curMsgID = 4], that is once the response with id 4 has been forwarded,
    the loop test [curMsgID <= mid] still holds and the call keeps polling;
    it does not write the kick packet. *)
Lemma Kick_gating_counterexample :
  GetRelationMsgIdFromContext (ctxMid 4) (UID (Session (agent1Cur 4))) = 4
  ∧ curMsgID (order (agent1Cur 4)) = 4
  ∧ Kick (agent1Cur 4) [agent1Cur 4; agent1Cur 4] (ctxMid 4) = Blocked (agent1Cur 4)
  ∧ Kick (agent1Cur 4) [agent1Cur 4; agent1Cur 4] (ctxMid 4) ≠ kickWrite (agent1Cur 4).
Proof. by repeat split. Qed.

Lemma Kick_after_close_witness :
  Kick agent1Closed [] (ctxMid 4)
    = Returned (emits [LogDebug "can't send kick, session has closed"] agent1Closed) None
  ∧ filter (λ e, isConnWrite e = true)
           (trace (agentOf (Kick agent1Closed [] (ctxMid 4))))
    = filter (λ e, isConnWrite e = true) (trace agent1Closed)
  ∧ (∀ pick route v,
       Push pick agent1Closed (ctxMid 4) route v
         = Returned agent1Closed (Some ErrBrokenPipe))
  ∧ (∀ pick mid v isError,
       ResponseMID pick agent1Closed (ctxMid 4) mid v isError
         = Returned agent1Closed (Some ErrBrokenPipe)).
Proof. apply (Kick_after_close agent1Closed [] (ctxMid 4)). reflexivity. Defined.

(** ** The heartbeat monitor *)

Section Heartbeat.
Context {Payload : Type}.
Implicit Types (a : agentImpl Payload).

Lemma select_elem {A} (ready : list A) pick x :
  select ready pick = Some x → x ∈ ready.
Proof. unfold select. apply list_elem_of_lookup_2. Qed.

Lemma select_ready {A} (ready : list A) pick :
  ready ≠ [] → is_Some (select ready pick).
Proof.
  intros Hne. unfold select. apply lookup_lt_is_Some.
  apply Nat.mod_upper_bound. by destruct ready.
Qed.

Lemma select_None {A} (ready : list A) pick :
  select ready pick = None → ready = [].
Proof.
  intros Hsel. destruct ready as [|x ready]; [done|].
  destruct (select_ready (x :: ready) pick) as [y Hy]; [done|]. congruence.
Qed.

Lemma select_singleton {A} (x : A) pick : select [x] pick = Some x.
Proof. unfold select. cbn [length]. by rewrite Nat.mod_1_r. Qed.

Lemma elem_of_if_singleton {A} (b : bool) (x y : A) :
  x ∈ (if b then [y] else []) → b = true ∧ x = y.
Proof.
  destruct b; [|by intros ?%elem_of_nil].
  by intros ->%list_elem_of_singleton.
Qed.

Lemma deadline_no_wrap now hb :
  (0 ≤ hb < 2 ^ 62)%Z → deadline now hb = ((now - 2 * hb) `div` Second)%Z.
Proof.
  intros Hhb. unfold deadline, Unix, wrap64.
  rewrite Z.mod_small by lia. f_equal. lia.
Qed.

(** The test [lastAt < deadline] in whole seconds against the times in
    nanoseconds. *)
Lemma heartbeat_timeout_iff la now hb :
  (0 ≤ hb < 2 ^ 62)%Z →
  (la < deadline now hb ↔ 2 * hb + Second ≤ now - la * Second)%Z.
Proof.
  intros Hhb. rewrite deadline_no_wrap by done.
  assert (0 < Second)%Z as HS by done. split.
  - intros H.
    assert (la + 1 ≤ (now - 2 * hb) `div` Second)%Z as H1 by lia.
    pose proof (Z.mul_div_le (now - 2 * hb) Second HS) as H2. nia.
  - intros H.
    assert (la + 1 ≤ (now - 2 * hb) `div` Second)%Z; [|lia].
    apply Z.div_le_lower_bound; [done|lia].
Qed.

(** C7 (heartbeat monitor, as the code has it).  On a tick the monitor
    compares [lastAt], in whole seconds, with the whole seconds of
    [now - 2 x heartbeatTimeout]: it returns, and the deferred [Close] runs,
    exactly when [now - lastAt] is at least [2 x heartbeatTimeout] plus one
    second.  Otherwise it tries to put the heartbeat frame on [chSend]: it
    does so only when [chSend] has room, it returns only when [chDie] or
    [chStopHeartbeat] is closed, it stays parked when [chSend] is full and
    both are open, and it does put the frame when [chSend] has room and
    both are open.  Whenever it returns the agent is closed. *)
Theorem heartbeat_on_tick pick hbd now a :
  (0 ≤ heartbeatTimeout a < 2 ^ 62)%Z →
  ((2 * heartbeatTimeout a + Second ≤ now - lastAt a * Second)%Z →
     heartbeatTick pick hbd now a =
       HbReturn ExitTimeout
         (heartbeatDeferred (emit (LogDebug "Session heartbeat timeout") a)))
  ∧ ((now - lastAt a * Second < 2 * heartbeatTimeout a + Second)%Z →
       match heartbeatTick pick hbd now a with
       | HbContinue a' =>
           (0 < chSendCapacity a)%Z
           ∧ a' = set_chSend (chSend a ++ [heartbeatFrame hbd]) a
       | HbReturn ExitDie a' => chDie a = true ∧ a' = heartbeatDeferred a
       | HbReturn ExitStop a' =>
           chStopHeartbeat a = true ∧ a' = heartbeatDeferred a
       | HbReturn ExitTimeout _ => False
       | HbParked a' =>
           (chSendCapacity a ≤ 0)%Z ∧ chDie a = false
           ∧ chStopHeartbeat a = false ∧ a' = a
       end)
  ∧ ((now - lastAt a * Second < 2 * heartbeatTimeout a + Second)%Z →
     (0 < chSendCapacity a)%Z → chDie a = false → chStopHeartbeat a = false →
       heartbeatTick pick hbd now a =
         HbContinue (set_chSend (chSend a ++ [heartbeatFrame hbd]) a))
  ∧ (∀ why a', heartbeatTick pick hbd now a = HbReturn why a' →
       GetStatus a' = StatusClosed).
Proof.
  intros Hhb.
  pose proof (heartbeat_timeout_iff (lastAt a) now _ Hhb) as Hiff.
  assert ((now - lastAt a * Second < 2 * heartbeatTimeout a + Second)%Z →
          heartbeatTick pick hbd now a =
            match select
                    ((if (0 <? chSendCapacity a)%Z then [HbSend] else [])
                       ++ (if chDie a then [HbDie] else [])
                       ++ (if chStopHeartbeat a then [HbStop] else [])) pick with
            | Some HbSend =>
                HbContinue (set_chSend (chSend a ++ [heartbeatFrame hbd]) a)
            | Some HbDie => HbReturn ExitDie (heartbeatDeferred a)
            | Some HbStop => HbReturn ExitStop (heartbeatDeferred a)
            | None => HbParked a
            end) as Hno.
  { intros Hlt. unfold heartbeatTick.
    destruct (Z.ltb_spec (lastAt a) (deadline now (heartbeatTimeout a)));
      [|done]. lia. }
  split; [|split; [|split]].
  - intros Hge. unfold heartbeatTick.
    destruct (Z.ltb_spec (lastAt a) (deadline now (heartbeatTimeout a)));
      [done|]. lia.
  - intros Hlt. rewrite (Hno Hlt).
    destruct (select _ pick) as [c|] eqn:Hsel.
    + apply select_elem in Hsel.
      apply elem_of_app in Hsel as [H|H];
        [|apply elem_of_app in H as [H|H]];
        apply elem_of_if_singleton in H as [Hb ->]; split; try done.
      by apply Z.ltb_lt.
    + apply select_None in Hsel.
      apply app_eq_nil in Hsel as [H1 [H2 H3]%app_eq_nil].
      destruct (0 <? chSendCapacity a)%Z eqn:E1; [done|].
      destruct (chDie a); [done|]. destruct (chStopHeartbeat a); [done|].
      apply Z.ltb_ge in E1. done.
  - intros Hlt Hcap Hd Hstop. rewrite (Hno Hlt), Hd, Hstop.
    destruct (Z.ltb_spec 0 (chSendCapacity a)); [|lia]. cbn [app].
    by rewrite select_singleton.
  - intros why a'. unfold heartbeatTick.
    destruct (lastAt a <? deadline now (heartbeatTimeout a))%Z.
    + intros H. inversion H. apply Close_status.
    + destruct (select _ pick) as [[]|]; try done;
        intros H; inversion H; apply Close_status.
Qed.
End Heartbeat.

Lemma heartbeat_on_tick_witness :
  heartbeatTick 0 hbd1 (3 * Second) agent1 =
    HbReturn ExitTimeout
      (heartbeatDeferred (emit (LogDebug "Session heartbeat timeout") agent1)).
Proof.
  destruct (heartbeat_on_tick 0 hbd1 (3 * Second)%Z agent1) as (H & _);
    [by vm_compute|].
  apply H. by vm_compute.
Defined.

(** C7 as the specification states it fails: with an interval of one
    second and no inbound activity since the epoch, on a tick two and a half
    seconds after it [now - lastAt] exceeds twice the interval, yet the
    monitor does not return; it puts the heartbeat frame on [chSend]. *)
Lemma heartbeat_timeout_counterexample :
  (now2500ms - lastAt agent1 * Second > 2 * heartbeatTimeout agent1)%Z
  ∧ heartbeatTick 0 hbd1 now2500ms agent1 =
      HbContinue (set_chSend [heartbeatFrame hbd1] agent1)
  ∧ GetStatus agent1 = StatusStart.
Proof. by repeat split. Qed.

(** The same with times in whole seconds and an interval of 750 ms: two
    seconds after the last activity, more than twice the interval, the
    monitor still sends a heartbeat. *)
Example heartbeat_timeout_subsecond_interval :
  (2 * Second - lastAt agent750ms * Second > 2 * heartbeatTimeout agent750ms)%Z
  ∧ heartbeatTick 0 hbd1 (2 * Second) agent750ms =
      HbContinue (set_chSend [heartbeatFrame hbd1] agent750ms).
Proof. by repeat split. Qed.

(** ** The handshake frame *)

(** [float64(n) + 0 = float64(n)] for an integer [n] that is not negative. *)
Lemma float64_of_int_add_zero n :
  (0 ≤ n)%Z →
  SFadd 53 1024 (float64_of_int n) (S754_zero false) = float64_of_int n.
Proof.
  intros Hn. unfold float64_of_int, binary_normalize.
  destruct n as [|m|m]; [done| |lia].
  unfold binary_round.
  destruct (shl_align m 0 _) as [mz ez].
  unfold binary_round_aux.
  destruct (shr_fexp 53 1024 (Z.pos mz) ez loc_Exact) as [mrs' e'].
  destruct (shr_fexp 53 1024 _ e' loc_Exact) as [mrs'' e''].
  destruct (shr_m mrs'') as [|m'|m']; [done| |done].
  by destruct (e'' <=? 1024 - 53)%Z.
Qed.

(** A duration of [n] whole seconds (in nanoseconds) has [Seconds] the
    number [n], as a float. *)
Lemma Seconds_whole n :
  (0 ≤ n)%Z → Seconds (n * Second) = float64_of_int n.
Proof.
  intros Hn. unfold Seconds.
  rewrite Z.quot_mul, Z.rem_mul by done.
  change (SFdiv 53 1024 (float64_of_int 0) (float64_of_int 1000000000))
    with (S754_zero false).
  by apply float64_of_int_add_zero.
Qed.

Example Seconds_30s :
  Seconds (30 * Second) = S754_finite false 8444249301319680 (-48).
Proof. reflexivity. Qed.

Example Seconds_1500ms :
  Seconds 1500000000 = S754_finite false 6755399441055744 (-52).
Proof. reflexivity. Qed.

(** C9 (handshake response).  The payload of the handshake frame is the
    JSON encoding of [{code: 200, sys: {heartbeat, dict, serializer}}],
    where [heartbeat] is the interval in seconds as a float (the number [n]
    for an interval of [n] whole seconds), replaced by its deflated form
    exactly when compression is enabled and the deflated form is strictly
    shorter; the frame is that payload packet-encoded with kind
    Handshake. *)
Theorem hbdEncode_handshake pk hb enc dc name json c hrd hbd :
  gojson_Marshal pk (hData pk hb name) = Ok json →
  (dc = true → compression_DeflateData pk json = Ok c) →
  pkt_Encode enc PktHandshake
    (if dc && (length c <? length json)%nat then c else json) = Ok hrd →
  pkt_Encode enc PktHeartbeat [] = Ok hbd →
  hData pk hb name =
    mkHandshake 200 (mkSys (Seconds hb) (message_GetDictionary pk) name)
  ∧ (∀ n, (0 ≤ n)%Z → hb = (n * Second)%Z →
       sys_heartbeat (hs_sys (hData pk hb name)) = float64_of_int n)
  ∧ hbdEncode pk hb enc dc name = Some (hrd, hbd).
Proof.
  intros Hjson Hdef Hhrd Hhbd. split; [done|]. split.
  { intros n Hn ->. by apply Seconds_whole. }
  unfold hbdEncode. rewrite Hjson. destruct dc; simpl in *.
  - rewrite (Hdef eq_refl). by rewrite Hhrd, Hhbd.
  - by rewrite Hhrd, Hhbd.
Qed.

Lemma hbdEncode_handshake_witness :
  hData (packagesTake 2) (30 * Second) "raw" =
    mkHandshake 200 (mkSys (Seconds (30 * Second)) ∅ "raw")
  ∧ (∀ n, (0 ≤ n)%Z → (30 * Second)%Z = (n * Second)%Z →
       sys_heartbeat (hs_sys (hData (packagesTake 2) (30 * Second) "raw"))
         = float64_of_int n)
  ∧ hbdEncode (packagesTake 2) (30 * Second) tagEncoder true "raw"
      = Some ([Byte.x01; Byte.x7b; Byte.x22], [Byte.x03]).
Proof.
  apply (hbdEncode_handshake (packagesTake 2) (30 * Second)%Z tagEncoder true
           "raw" [Byte.x7b; Byte.x22; Byte.x22; Byte.x7d] [Byte.x7b; Byte.x22]);
    reflexivity.
Defined.

Example hbdEncode_not_shorter :
  hbdEncode (packagesTake 4) Second tagEncoder true "raw"
    = Some ([Byte.x01; Byte.x7b; Byte.x22; Byte.x22; Byte.x7d], [Byte.x03]).
Proof. reflexivity. Qed.

Example hbdEncode_compression_off :
  hbdEncode (packagesTake 2) Second tagEncoder false "raw"
    = Some ([Byte.x01; Byte.x7b; Byte.x22; Byte.x22; Byte.x7d], [Byte.x03]).
Proof. reflexivity. Qed.

(* ===================================================================== *)
(** * Further properties of the code *)
(* ===================================================================== *)

(** ** The ordering stage, continued *)

Section OrderingMore.
Implicit Types (st : orderState) (p q r : pendingWrite) (m : Message).
Implicit Types (pd : gmap N (list pendingWrite)) (keys : list N).

Lemma pending_empty : pending ∅ = [].
Proof. unfold pending. by rewrite map_to_list_empty. Qed.

(** Conservation: whatever the ordering stage took from [chOrder] is either
    forwarded or still waiting in a bucket, once each. *)
Theorem ordered_conserves_items items st' out :
  ordered newOrder items = Some (st', out) →
  out ++ pending (pushDelay st') ≡ₚ items.
Proof.
  intros H%ordered_perm. simpl in H.
  by rewrite pending_empty, app_nil_r in H.
Qed.

(** *** The invariant of the deferred pushes *)

Lemma delay_lookup pd k p j :
  delay k p pd !! j =
    if decide (k = j) then Some (default [] (pd !! k) ++ [p]) else pd !! j.
Proof.
  unfold delay. case_decide as Hk.
  - subst. apply lookup_insert_eq.
  - by apply lookup_insert_ne.
Qed.

Lemma restoreOld_gate keys st :
  pushDelayMID (restoreOld keys st).1 = 0 ∨ (restoreOld keys st).1 = st.
Proof.
  revert st. induction keys as [|id keys IH]; intros st; simpl; [by right|].
  destruct (curMsgID st <=? id); [by right|].
  unfold restore. destruct (pushDelay st !! id) as [val|] eqn:E.
  - specialize (IH (mkOrder (curMsgID st) 0 (delete id (pushDelay st)))).
    destruct (restoreOld keys _) as [st2 out2]. simpl in *.
    left. destruct IH as [?| ->]; done.
  - specialize (IH st). destruct (restoreOld keys st) as [st2 out2]. done.
Qed.

Lemma afterResponse_gate m st :
  pushDelayMID (afterResponse m st).1 = 0
  ∨ (pushDelayMID (afterResponse m st).1 = pushDelayMID st
     ∧ pushDelay (afterResponse m st).1 = pushDelay st).
Proof.
  rewrite afterResponse_eq. cbn [fst].
  match goal with |- context [restoreOld ?ks ?s] =>
    destruct (restoreOld_gate ks s) as [H0|Heq]
  end.
  - by left.
  - rewrite Heq. cbn [pushDelayMID pushDelay].
    destruct (pushDelay st !! ID m) eqn:E; [by left|].
    right. split; [done|]. by apply delete_id.
Qed.

Lemma orderInv_new : orderInv newOrder.
Proof.
  split; [|by left]. intros k val H. simpl in H. by rewrite lookup_empty in H.
Qed.

Lemma orderedMsg_inv st p m :
  pw_msg p = Some m → orderInv st → orderInv (orderedMsg st p m).1.
Proof.
  intros Hm Hinv. pose proof Hinv as [Hb Hg]. unfold orderedMsg.
  assert (∀ k, Typ m = message.Push →
            (curMsgID st < k) → 
            orderInv (mkOrder (curMsgID st) k (delay k p (pushDelay st)))) as Hdelay.
  { intros k T Hk. split; cbn [curMsgID pushDelay pushDelayMID].
    - intros j val. rewrite delay_lookup. case_decide as Hj.
      + subst j. intros [= <-]. split; [done|]. split.
        * by destruct (default _ _).
        * apply Forall_app. split.
          -- destruct (pushDelay st !! k) as [old|] eqn:E; [|done].
             by destruct (Hb _ _ E) as (_ & _ & ?).
          -- apply Forall_singleton. unfold isPush, msgTyp.
             rewrite Hm. simpl. by rewrite T.
      + apply Hb.
    - right. rewrite delay_lookup, decide_True by done. by eexists. }
  assert (Typ m = message.Push → 0 < pushDelayMID st →
          orderInv (mkOrder (curMsgID st) (pushDelayMID st)
                            (delay (pushDelayMID st) p (pushDelay st)))) as Hgated.
  { intros T Hpos. destruct Hg as [Hg|[val Hg]]; [lia|].
    apply Hdelay; [done|]. by destruct (Hb _ _ Hg). }
  destruct (decide (Typ m = message.Push)) as [T|T].
  - rewrite T. simpl.
    destruct (N.ltb_spec 0 (ID m)); simpl.
    + destruct (N.ltb_spec (curMsgID st) (ID m)); simpl; [by apply Hdelay|].
      destruct (N.ltb_spec 0 (pushDelayMID st)); simpl; [by apply Hgated|done].
    + destruct (N.ltb_spec 0 (pushDelayMID st)); simpl; [by apply Hgated|done].
  - rewrite !(bool_decide_eq_false_2 (Typ m = message.Push)) by done. simpl.
    case_bool_decide as T'; [|done].
    pose proof (afterResponse_pushDelay m st) as Hpd.
    pose proof (afterResponse_curMsgID m st) as Hcur.
    pose proof (afterResponse_gate m st) as Hgate.
    destruct (afterResponse m st) as [st' out]. simpl in *.
    split.
    + intros k val. rewrite Hpd, Hcur. case_decide; [|done].
      intros Hk. destruct (Hb _ _ Hk) as (_ & ? & ?). done.
    + destruct Hgate as [?|[Hg1 Hg2]]; [by left|].
      rewrite Hg1, Hg2. done.
Qed.

(** Invariant: in every state the ordering stage reaches from its initial
    state, each bucket has a key above [curMsgID], is not empty and holds
    pushes only, and a gate that is set names an existing bucket. *)
Theorem ordered_invariant items st' out :
  ordered newOrder items = Some (st', out) → orderInv st'.
Proof.
  generalize orderInv_new. generalize newOrder as st.
  intros st Hinv. revert st out Hinv.
  induction items as [|p items IH]; intros st out Hinv.
  - by intros [= <- <-].
  - intros (m & o1 & o2 & Hm & Hrest & _ & _)%ordered_cons_Some.
    eapply IH; [|exact Hrest]. by apply orderedMsg_inv.
Qed.

(** *** Responses are never held back *)

Lemma afterResponse_released m st x :
  x ∈ (afterResponse m st).2 →
  ∃ k val, pushDelay st !! k = Some val ∧ x ∈ val.
Proof.
  rewrite afterResponse_out. intros [H|H]%elem_of_app.
  - destruct (pushDelay st !! ID m) as [val|] eqn:E; [by eauto|].
    by apply elem_of_nil in H.
  - apply list_elem_of_join in H as (l & Hx & Hl).
    apply list_elem_of_fmap in Hl as (k & -> & _).
    destruct (pushDelay st !! k) as [val|] eqn:E; [by eauto|].
    by apply elem_of_nil in Hx.
Qed.

Lemma isPush_not_response x : isPush x → ¬ isResponse x.
Proof. unfold isPush, isResponse. intros -> [=]. Qed.

Lemma filter_isResponse_pushes (l : list pendingWrite) :
  Forall isPush l → filter isResponse l = [].
Proof.
  induction 1 as [|x l Hx _ IH]; [done|].
  rewrite filter_cons_False by by apply isPush_not_response.
  done.
Qed.

Lemma orderedMsg_responses st p m :
  pw_msg p = Some m → orderInv st →
  filter isResponse (orderedMsg st p m).2 = filter isResponse [p].
Proof.
  intros Hm [Hb _]. unfold orderedMsg.
  assert (Typ m = message.Push → filter isResponse [p] = []) as Hpush.
  { intros T. rewrite filter_cons_False; [done|].
    unfold isResponse, msgTyp. rewrite Hm. simpl. by rewrite T. }
  destruct (decide (Typ m = message.Push)) as [T|T].
  - rewrite T. simpl.
    destruct (0 <? ID m); simpl;
      [destruct (curMsgID st <? ID m); simpl|];
      try (by rewrite Hpush);
      destruct (0 <? pushDelayMID st); simpl; by rewrite ?Hpush.
  - rewrite !(bool_decide_eq_false_2 (Typ m = message.Push)) by done. simpl.
    case_bool_decide as T'; [|done].
    pose proof (afterResponse_released m st) as Hrel.
    destruct (afterResponse m st) as [st' out]. simpl in *.
    assert (isResponse p) as Hp.
    { unfold isResponse, msgTyp. rewrite Hm. simpl. by rewrite T'. }
    rewrite !filter_cons_True by done. f_equal.
    rewrite filter_nil. apply filter_isResponse_pushes.
    apply Forall_forall. intros x Hx.
    destruct (Hrel x Hx) as (k & val & Hk & Hxv).
    destruct (Hb _ _ Hk) as (_ & _ & Hall).
    rewrite Forall_forall in Hall. by apply Hall.
Qed.

(** The responses are forwarded in the order they were taken from
    [chOrder], none missing and none added: the ordering stage delays
    pushes only. *)
Theorem ordered_keeps_responses items st' out :
  ordered newOrder items = Some (st', out) →
  filter isResponse out = filter isResponse items.
Proof.
  generalize orderInv_new. generalize newOrder as st.
  intros st Hinv. revert st out Hinv.
  induction items as [|p items IH]; intros st out Hinv.
  - by intros [= <- <-].
  - intros (m & o1 & o2 & Hm & Hrest & Ho1 & ->)%ordered_cons_Some.
    rewrite filter_app, <- Ho1, (orderedMsg_responses st p m Hm Hinv).
    rewrite (IH _ _ (orderedMsg_inv st p m Hm Hinv) Hrest).
    by rewrite <- filter_app.
Qed.

(** *** A deferred push waits for a response that reaches its bucket *)

Lemma inBucket_pending p k st : inBucket p k st → p ∈ pending (pushDelay st).
Proof.
  intros (val & Hk & Hp). unfold pending.
  apply list_elem_of_join. exists val. split; [done|].
  apply list_elem_of_fmap. exists (k, val). split; [done|].
  by apply elem_of_map_to_list.
Qed.

(** A push that sits in bucket [M] is not forwarded, and stays in bucket
    [M], for as long as every response taken has an id below [M]. *)
Theorem deferred_push_waits st items st' out p M :
  ordered st items = Some (st', out) →
  NoDup (items ++ pending (pushDelay st)) →
  Forall (respBelow M) items →
  inBucket p M st →
  inBucket p M st' ∧ p ∉ out.
Proof.
  intros Hrun Hnd Hall Hin.
  pose proof (ordered_keeps_bucket _ _ _ _ p M Hrun Hall Hin) as Hin'.
  split; [done|].
  rewrite <- (ordered_perm _ _ _ _ Hrun) in Hnd.
  apply NoDup_app in Hnd as (_ & Hdisj & _).
  intros Hp. apply (Hdisj p Hp). by eapply inBucket_pending.
Qed.

(** *** Pushes of one request, then its response *)

Lemma pushes_deferred M pushes st :
  0 < M → curMsgID st < M → pushes ≠ [] →
  Forall (pushWithID M) pushes →
  ordered st pushes =
    Some (mkOrder (curMsgID st) M
            (<[M := default [] (pushDelay st !! M) ++ pushes]> (pushDelay st)),
          []).
Proof.
  intros Hpos. revert st. induction pushes as [|p pushes IH]; [done|].
  intros st Hc _ [(m & Hm & T & Hid) Hall]%Forall_cons.
  assert (orderedMsg st p m
          = (mkOrder (curMsgID st) M (delay M p (pushDelay st)), [])) as E.
  { unfold orderedMsg. rewrite T, Hid. simpl.
    destruct (N.ltb_spec 0 M); [|lia].
    by destruct (N.ltb_spec (curMsgID st) M); [|lia]. }
  destruct pushes as [|p' pushes'].
  - simpl. unfold orderedIter. by rewrite Hm, E.
  - apply ordered_cons_Some. exists m, [], []. rewrite E. cbn [fst snd].
    split; [done|]. split; [|done].
    rewrite IH by done. cbn [curMsgID pushDelay].
    rewrite delay_lookup, decide_True by done. cbn [default].
    unfold delay. rewrite insert_insert_eq. unfold id.
    by rewrite <- app_assoc.
Qed.

Lemma pushes_then_response M pushes r mr :
  0 < M → Forall (pushWithID M) pushes →
  pw_msg r = Some mr → Typ mr = message.Response → ID mr = M →
  ordered newOrder (pushes ++ [r]) = Some (mkOrder M 0 ∅, r :: pushes).
Proof.
  intros Hpos Hall Hmr T Hid.
  destruct pushes as [|p pushes'].
  - simpl. unfold orderedIter. rewrite Hmr, orderedMsg_response by done.
    subst M. by vm_compute.
  - apply ordered_app_Some.
    eexists _, [], (r :: p :: pushes'). split.
    { apply pushes_deferred; [done|done|done|done]. }
    split; [|done]. simpl. unfold orderedIter.
    rewrite Hmr, orderedMsg_response by done.
    unfold afterResponse, restore. rewrite Hid. cbn [pushDelay pushDelayMID curMsgID].
    rewrite lookup_insert_eq. cbn [pushDelay fst snd].
    rewrite delete_insert_eq, delete_empty.
    rewrite bool_decide_eq_true_2 by done. simpl.
    by rewrite lookup_empty, app_nil_r.
Qed.

(** When the pushes tagged with the id [M > 0] of a request reach the
    ordering stage before the response to that request, the response goes
    out first and the pushes follow it in the order they came; nothing stays
    behind. *)
Theorem pushes_follow_their_response M pushes r mr :
  0 < M → Forall (pushWithID M) pushes →
  pw_msg r = Some mr → Typ mr = message.Response → ID mr = M →
  ordered newOrder (pushes ++ [r]) = Some (mkOrder M 0 ∅, r :: pushes).
Proof. apply pushes_then_response. Qed.

(** *** What happens to a push, what to anything else *)

(** A push is deferred when its id is above [curMsgID] (under its own id)
    or, failing that, when a gate is set (under the id of the gate, whatever
    its own id); otherwise it is forwarded at once and nothing changes.  An
    item that is not a push is never deferred: it is the first item
    forwarded in its turn. *)
Theorem orderedIter_decision st p m :
  pw_msg p = Some m →
  (Typ m = message.Push → 0 < ID m → curMsgID st < ID m →
     orderedIter st p =
       Some (mkOrder (curMsgID st) (ID m) (delay (ID m) p (pushDelay st)), []))
  ∧ (Typ m = message.Push → ID m ≤ curMsgID st → 0 < pushDelayMID st →
     orderedIter st p =
       Some (mkOrder (curMsgID st) (pushDelayMID st)
               (delay (pushDelayMID st) p (pushDelay st)), []))
  ∧ (Typ m = message.Push → ID m ≤ curMsgID st → pushDelayMID st = 0 →
     orderedIter st p = Some (st, [p]))
  ∧ (Typ m ≠ message.Push →
     ∃ st' rest, orderedIter st p = Some (st', p :: rest)).
Proof.
  intros Hm. unfold orderedIter, orderedMsg. rewrite Hm.
  split; [|split; [|split]].
  - intros T H0 Hc. rewrite T. simpl.
    destruct (N.ltb_spec 0 (ID m)); [|lia].
    by destruct (N.ltb_spec (curMsgID st) (ID m)); [|lia].
  - intros T Hle Hg. rewrite T. simpl.
    destruct (N.ltb_spec (curMsgID st) (ID m)); [lia|].
    rewrite andb_false_r. by destruct (N.ltb_spec 0 (pushDelayMID st)); [|lia].
  - intros T Hle Hg. rewrite T, Hg. simpl.
    destruct (N.ltb_spec (curMsgID st) (ID m)); [lia|].
    by rewrite andb_false_r.
  - intros T. rewrite !(bool_decide_eq_false_2 (Typ m = message.Push)) by done.
    simpl. case_bool_decide; [|by eauto].
    destruct (afterResponse m st) as [st' out]. by eauto.
Qed.

End OrderingMore.

(** ** The agent, continued *)

Section AgentMore.
Context {Payload : Type}.
Implicit Types (a : agentImpl Payload) (pm : pendingMessage Payload).

(** *** What [Close] leaves alone *)

Lemma Close_keeps_queues a :
  chSend (agentOf (Close a)) = chSend a
  ∧ chOrder (agentOf (Close a)) = chOrder a
  ∧ order (agentOf (Close a)) = order a
  ∧ ∀ a', Close a ≠ Blocked a'.
Proof.
  unfold Close. case_bool_decide as Hs; [done|].
  rewrite onSessionClosed_emits.
  destruct a as [s sp die co cs sh sw so c enc hb la me mbs mr ser st ord tr].
  simpl in *. destruct die; [done|]. destruct sw; [done|].
  destruct so; [done|]. by destruct sh.
Qed.

(** [Close] is idempotent on every agent: after a first call, whatever the
    state it found and even if it panicked, a second call returns
    [ErrCloseClosedSession] and changes nothing. *)
Theorem Close_twice a :
  Close (agentOf (Close a))
    = Returned (agentOf (Close a)) (Some ErrCloseClosedSession).
Proof. apply Close_closed, Close_status. Qed.

(** Close callbacks run at most once.  When the status of a closed agent is
    set back (by [SetStatus]) and [Close] is called again, [chDie] is found
    closed: no channel is closed a second time and no callback is invoked
    again; only the metric is reported and the transport closed again. *)
Theorem Close_after_status_reset a s :
  alive a → s ≠ StatusClosed →
  ∃ a1 a2,
    Close a = Returned a1 (conn_CloseErr (conn a))
    ∧ Close (SetStatus s a1) = Returned a2 (conn_CloseErr (conn a))
    ∧ trace a2 = trace a1 ++ [LogDebug "Session closed"; ReportClients; ConnClose]
    ∧ GetStatus a2 = StatusClosed.
Proof.
  intros Ha Hs. destruct (Close_alive a Ha) as (a1 & HC & _ & Hch & _).
  exists a1. assert (conn a1 = conn a) as Hconn.
  { replace a1 with (agentOf (Close a)) by by rewrite HC.
    unfold Close. destruct Ha as [Hst (Hd & Hw & Ho & Hh)].
    rewrite bool_decide_eq_false_2 by done. rewrite onSessionClosed_emits.
    destruct a. simpl in *. by subst. }
  destruct Hch as (Hd & _).
  unfold Close at 2.
  destruct a1 as [s1 sp die co cs sh sw so c enc hb la me mbs mr ser st ord tr].
  simpl in *. subst. rewrite bool_decide_eq_false_2 by done. simpl.
  eexists. split; [done|]. split; [done|]. simpl.
  split; [|done]. by rewrite <- !app_assoc.
Qed.

(** A session callback that panics ends [onSessionClosed]: the callbacks
    before it have run, the ones after it and the callbacks of the pool do
    not, and the panic is logged.  [Close] goes on all the same and closes
    the transport. *)
Theorem Close_with_panicking_callback a before cb after :
  alive a →
  OnCloseCallbacks (Session a) = before ++ cb :: after →
  Forall (λ c, cb_panics c = false) before → cb_panics cb = true →
  ∃ a',
    Close a = Returned a' (conn_CloseErr (conn a))
    ∧ trace a' =
        trace a
          ++ [LogDebug "Session closed"; ChanClose SigStopWrite;
              ChanClose SigStopOrder; ChanClose SigStopHeartbeat; ChanClose SigDie]
          ++ (SessionCallback <$> before)
          ++ [SessionCallback cb; LogError "pitaya/onSessionClosed";
              ReportClients; ConnClose].
Proof.
  intros Ha Hcbs Hbefore Hcb.
  destruct (Close_alive a Ha) as (a' & HC & _ & _ & Ht & _).
  exists a'. split; [done|]. rewrite Ht. f_equal.
  unfold closeEvents, onSessionClosedEvents. rewrite Hcbs.
  assert (runCallbacks SessionCallback (before ++ cb :: after)
          = ((SessionCallback <$> before) ++ [SessionCallback cb], true)) as ->.
  { clear -Hbefore Hcb. induction Hbefore as [|c before Hc _ IH]; simpl.
    - by rewrite Hcb.
    - by rewrite Hc, IH. }
  simpl. by rewrite <- !app_assoc.
Qed.

(** *** Producers *)

Lemma send_enqueues_msg pick a pm m p :
  chSendCapacity a ≠ 0%Z →
  getMessageFromPendingMessage a pm = Ok m →
  packetEncodeMessage a m = Ok p →
  (0 < chOrderCapacity a)%Z → chDie a = false →
  ∃ evs,
    send pick a pm =
      Returned
        (set_chOrder
           (chOrder a
              ++ [mkPendingWrite (pm_ctx pm) p
                    (if pm_err pm
                     then Some (GetErrorFromPayload (serializer a) (Data m))
                     else None)
                    (Some m)])
           (emits evs a))
        None.
Proof.
  intros Hcap Hm Hp Hroom Hdie. unfold send.
  destruct (reportChannelSize_emits a) as [evs ->]. exists evs.
  rewrite chSendCapacity_emits.
  destruct (Z.eqb_spec (chSendCapacity a) 0); [done|].
  replace (getMessageFromPendingMessage (emits evs a) pm)
    with (getMessageFromPendingMessage a pm) by by destruct a.
  rewrite Hm.
  replace (packetEncodeMessage (emits evs a) m)
    with (packetEncodeMessage a m) by by destruct a.
  rewrite Hp.
  replace (chOrderCapacity (emits evs a)) with (chOrderCapacity a)
    by by destruct a.
  replace (chDie (emits evs a)) with (chDie a) by by destruct a.
  rewrite Hdie. destruct (Z.ltb_spec 0 (chOrderCapacity a)); [|lia].
  cbn [app]. unfold select. cbn [length]. rewrite Nat.mod_1_r. simpl.
  by destruct a.
Qed.

(** [Push] on an open agent with room in both queues and collaborators that
    succeed puts exactly one item at the end of [chOrder]: a push message
    with the route, the serialized payload and, as its id, the message id
    the relation table of the context gives the user of the session; it
    returns nil and leaves [chSend] and the status alone. *)
Theorem Push_enqueues pick a ctx route v payload em p :
  GetStatus a ≠ StatusClosed → chDie a = false →
  chSendCapacity a ≠ 0%Z → (0 < chOrderCapacity a)%Z →
  SerializeOrRaw (serializer a) v = Ok payload →
  msg_Encode (messageEncoder a)
    (mkMessage message.Push (GetRelationMsgIdFromContext ctx (UID (Session a)))
               route payload false) = Ok em →
  pkt_Encode (encoder a) PktData em = Ok p →
  ∃ a',
    Push pick a ctx route v = Returned a' None
    ∧ chOrder a' =
        chOrder a
          ++ [mkPendingWrite ctx p None
                (Some (mkMessage message.Push
                         (GetRelationMsgIdFromContext ctx (UID (Session a)))
                         route payload false))]
    ∧ chSend a' = chSend a ∧ GetStatus a' = GetStatus a.
Proof.
  intros Hs Hdie Hcap Hroom Hser Hem Hp. unfold Push.
  rewrite bool_decide_eq_false_2 by done.
  edestruct (send_enqueues_msg pick a) as [evs ->]; try done.
  - unfold getMessageFromPendingMessage. cbn [pm_payload]. by rewrite Hser.
  - unfold packetEncodeMessage. cbn [pm_typ pm_mid pm_route pm_err].
    by rewrite Hem.
  - eexists. split; [done|]. by destruct a.
Qed.

(** When the serializer fails on the payload and an error payload can be
    built, [send] puts the message on [chOrder] with the error payload as its
    data and returns nil; the error flag of the message stays the one the
    caller gave. *)
Theorem send_substitutes_error_payload pick a pm err payload em p :
  chDie a = false → chSendCapacity a ≠ 0%Z → (0 < chOrderCapacity a)%Z →
  SerializeOrRaw (serializer a) (pm_payload pm) = Fail err →
  GetErrorPayload (serializer a) err = Ok payload →
  msg_Encode (messageEncoder a)
    (mkMessage (pm_typ pm) (pm_mid pm) (pm_route pm) payload (pm_err pm)) = Ok em →
  pkt_Encode (encoder a) PktData em = Ok p →
  ∃ a',
    send pick a pm = Returned a' None
    ∧ chOrder a' = chOrder a ++ [sentItem a pm payload p]
    ∧ chSend a' = chSend a.
Proof.
  intros Hdie Hcap Hroom Hser Herr Hem Hp.
  edestruct (send_enqueues_msg pick a pm) as [evs ->]; try done.
  - unfold getMessageFromPendingMessage. by rewrite Hser, Herr.
  - unfold packetEncodeMessage. by rewrite Hem.
  - eexists. split; [done|]. by destruct a.
Qed.

(** A producer never panics and never touches what belongs to the ordering
    stage and the writer: whatever [Push] does (shed and close, fail,
    enqueue, park), [chSend], [curMsgID], the gate and the buckets are as
    before. *)
Theorem Push_leaves_pipeline pick a ctx route v :
  (∀ a', Push pick a ctx route v ≠ Panicked a')
  ∧ chSend (agentOf (Push pick a ctx route v)) = chSend a
  ∧ order (agentOf (Push pick a ctx route v)) = order a.
Proof.
  unfold Push. case_bool_decide; [done|]. unfold send.
  destruct (reportChannelSize_emits a) as [evs ->].
  destruct (_ =? _)%Z.
  - match goal with |- context [Close ?x] =>
      destruct (Close_keeps_queues x) as (H1 & _ & H3 & H4);
      destruct (Close x) as [a'|a'|a'] eqn:E
    end; simpl in *.
    + rewrite H1, H3. by destruct a.
    + by destruct (H4 a').
    + rewrite H1, H3. by destruct a.
  - destruct (getMessageFromPendingMessage _ _) as [m| |];
      [|by destruct a|by destruct a].
    destruct (packetEncodeMessage _ _) as [p| |];
      [|by destruct a|by destruct a].
    destruct (select _ pick) as [[]|]; by destruct a.
Qed.

(** [ResponseMID] with an id above zero on an open agent panics when the
    context carries no route that is a string (a nil context, no propagated
    map, no entry under the route key, an entry of another type): the type
    assertion on the route is outside the recover of [send].  Nothing is
    enqueued. *)
Theorem ResponseMID_without_route pick a ctx mid v isError :
  GetStatus a ≠ StatusClosed → 0 < mid →
  (∀ route, GetFromPropagateCtx ctx RouteKey ≠ Ok (Some (PString route))) →
  ResponseMID pick a ctx mid v isError = Panicked a.
Proof.
  intros Hs Hmid Hroute. unfold ResponseMID.
  rewrite bool_decide_eq_false_2 by done.
  destruct (N.leb_spec mid 0); [lia|].
  destruct (GetFromPropagateCtx ctx RouteKey) as [[[route|]|]| |]; try done.
  by destruct (Hroute route).
Qed.

(** An agent made with a buffer size of zero sheds at once: the first
    [Push] finds no spare capacity on [chSend], closes the agent and returns
    nil; nothing is enqueued. *)
Theorem Push_on_unbuffered_agent pick c enc (ser : Serializer Payload) hb me
    reporters pool s now ctx route v :
  ∃ a',
    Push pick (newAgent c enc ser hb 0 me reporters pool s now) ctx route v
      = Returned a' None
    ∧ GetStatus a' = StatusClosed ∧ chOrder a' = [] ∧ chSend a' = []
    ∧ last (trace a') = Some ConnClose.
Proof.
  unfold Push. rewrite bool_decide_eq_false_2 by done. unfold send.
  destruct (reportChannelSize_emits
              (newAgent c enc ser hb 0 me reporters pool s now)) as [evs ->].
  rewrite chSendCapacity_emits. cbn [chSendCapacity newAgent messagesBufferSize
    chSend length]. simpl (_ =? _)%Z. cbv iota.
  rewrite emit_emits, emits_emits.
  match goal with |- context [Close ?x] =>
    destruct (Close_alive x) as (a' & -> & Hs & _ & Ht & Hco & Hcs & _);
      [by apply alive_emits, newAgent_alive|]
  end.
  exists a'. split; [done|]. split; [done|]. split; [done|]. split; [done|].
  rewrite Ht. unfold closeEvents.
  change [ReportClients; ConnClose] with ([ReportClients] ++ [ConnClose]).
  rewrite !app_assoc. apply last_snoc.
Qed.
End AgentMore.

(** ** The heartbeat monitor and the reader's time stamp *)

Section HeartbeatMore.
Context {Payload : Type}.
Implicit Types (a : agentImpl Payload).

Lemma SetLastAt_fields t a :
  lastAt (SetLastAt t a) = Unix t
  ∧ heartbeatTimeout (SetLastAt t a) = heartbeatTimeout a.
Proof. by destruct a. Qed.

Lemma Unix_bounds t : (Unix t * Second ≤ t < Unix t * Second + Second)%Z.
Proof.
  unfold Unix. assert (0 < Second)%Z as HS by done.
  pose proof (Z.mul_div_le t Second HS).
  pose proof (Z.mul_succ_div_gt t Second HS). lia.
Qed.

(** Liveness kept: when the last inbound activity, stamped by [SetLastAt]
    at time [t], is at most twice the interval old at a tick, the monitor
    does not time out. *)
Theorem heartbeat_recent_activity pick hbd now t a :
  (0 ≤ heartbeatTimeout a < 2 ^ 62)%Z →
  (now - t ≤ 2 * heartbeatTimeout a)%Z →
  ∀ a', heartbeatTick pick hbd now (SetLastAt t a) ≠ HbReturn ExitTimeout a'.
Proof.
  intros Hhb Hrecent a'. unfold heartbeatTick.
  destruct (SetLastAt_fields t a) as [-> ->].
  destruct (Z.ltb_spec (Unix t) (deadline now (heartbeatTimeout a))) as [Hlt|_].
  - apply heartbeat_timeout_iff in Hlt; [|done].
    pose proof (Unix_bounds t). lia.
  - by destruct (select _ pick) as [[]|].
Qed.

(** Liveness lost: when nothing came in for twice the interval and a second
    more, the tick makes the monitor return, and the agent is closed. *)
Theorem heartbeat_silence_times_out pick hbd now t a :
  (0 ≤ heartbeatTimeout a < 2 ^ 62)%Z →
  (2 * heartbeatTimeout a + Second ≤ now - t)%Z →
  ∃ a', heartbeatTick pick hbd now (SetLastAt t a) = HbReturn ExitTimeout a'
        ∧ GetStatus a' = StatusClosed.
Proof.
  intros Hhb Hsilent. unfold heartbeatTick.
  destruct (SetLastAt_fields t a) as [-> ->].
  destruct (Z.ltb_spec (Unix t) (deadline now (heartbeatTimeout a))) as [_|Hge].
  - eexists. split; [done|]. apply Close_status.
  - exfalso. apply Z.le_ngt in Hge. apply Hge.
    apply heartbeat_timeout_iff; [done|].
    pose proof (Unix_bounds t). lia.
Qed.

(** ** The writer *)

Lemma writeIter_healthy pick a pWrite rest :
  conn_WriteErr (conn a) = None → chStopWrite a = false →
  chSend a = pWrite :: rest →
  writeIter pick a =
    WrContinue (emit (ConnWrite (pw_data pWrite)) (set_chSend rest a))
               (writtenSinks pWrite).
Proof.
  intros Hc Hstop Hq. unfold writeIter. rewrite Hq, Hstop, Hc. cbn [app].
  unfold select. cbn [length]. by rewrite Nat.mod_1_r.
Qed.

(** With a transport that accepts the writes and [chStopWrite] open, the
    writer writes the items waiting on [chSend] one per turn in the order
    they were put there, takes them off the queue, and reports each to the
    tracing and metrics sinks with the error attached to the item; the
    status of the agent does not change. *)
Theorem write_drains_in_order picks a :
  conn_WriteErr (conn a) = None → chStopWrite a = false →
  (length picks ≤ length (chSend a))%nat →
  ∃ a',
    write picks a =
      (a', take (length picks) (chSend a) ≫= writtenSinks, WriterRunning)
    ∧ chSend a' = drop (length picks) (chSend a)
    ∧ trace a' =
        trace a ++ (ConnWrite ∘ pw_data <$> take (length picks) (chSend a))
    ∧ GetStatus a' = GetStatus a.
Proof.
  revert a. induction picks as [|pick picks IH]; intros a Hc Hstop Hlen.
  - exists a. simpl. rewrite drop_0, app_nil_r. done.
  - destruct (chSend a) as [|pWrite rest] eqn:Hq; [simpl in Hlen; lia|].
    cbn [write]. rewrite (writeIter_healthy pick a pWrite rest) by done.
    destruct (IH (emit (ConnWrite (pw_data pWrite)) (set_chSend rest a)))
      as (a' & Hw & Hs & Ht & Hst).
    { by destruct a. } { by destruct a. }
    { destruct a. simpl in *. subst. simpl in Hlen. lia. }
    rewrite Hw. exists a'. cbn [length take drop].
    replace (chSend (emit (ConnWrite (pw_data pWrite)) (set_chSend rest a)))
      with rest in * by by destruct a.
    split; [done|]. split; [done|]. split.
    + rewrite Ht. destruct a; simpl. by rewrite <- app_assoc.
    + rewrite Hst. by destruct a.
Qed.

(** When the transport refuses a write, the writer stops at that item: it
    reports the error to the sinks, logs it, returns, and the deferred
    [Close] closes the agent; the items behind it stay unwritten on
    [chSend]. *)
Theorem write_error_closes pick picks a pWrite rest err :
  alive a → conn_WriteErr (conn a) = Some err → chStopWrite a = false →
  chSend a = pWrite :: rest →
  ∃ a',
    write (pick :: picks) a =
      (a', [FinishSpan (pw_ctx pWrite) (Some err);
            ReportTiming (pw_ctx pWrite) (Some err)], WriterReturned)
    ∧ GetStatus a' = StatusClosed ∧ chSend a' = rest
    ∧ trace a' =
        trace a ++ [ConnWrite (pw_data pWrite); LogError "Failed to write in conn"]
                ++ closeEvents a.
Proof.
  intros Ha Hc Hstop Hq. cbn [write]. unfold writeIter.
  rewrite Hq, Hstop, Hc. cbn [app]. unfold select. cbn [length].
  rewrite Nat.mod_1_r. cbn [lookup list_lookup].
  rewrite !emit_emits, emits_emits.
  match goal with |- context [Close ?x] =>
    destruct (Close_alive x) as (a' & -> & Hs & _ & Ht & _ & Hcs & _)
  end.
  { destruct a; simpl in *. exact Ha. }
  exists a'. cbn [agentOf]. split; [done|]. split; [done|]. split.
  - rewrite Hcs. by destruct a.
  - rewrite Ht. destruct a; simpl. unfold closeEvents. simpl.
    by rewrite <- !app_assoc.
Qed.
End HeartbeatMore.

(** ** From the handler to the wire *)


(** ** The context helpers *)

(** A context that has nothing about the user (a nil context, no relation
    table, a value of another type under the key, a table without the user)
    gives the message id 0, "unassociated", and the session id 0. *)
Theorem relation_ids_missing ctx uid :
  (∀ c tbl, ctx = Some c → msgRelation c = Some (RelTable tbl) →
            tbl !! uid = None) →
  GetRelationMsgIdFromContext ctx uid = 0
  ∧ GetSessionIdFromContext ctx uid = 0%Z.
Proof.
  intros Hmiss.
  assert (GetRelationDataFromContextByUID ctx uid = mkRelation 0 0) as E.
  { destruct ctx as [c|]; [|done]. simpl.
    destruct (msgRelation c) as [[tbl|]|] eqn:Hrel; simpl.
    - by rewrite (Hmiss c tbl eq_refl Hrel).
    - by rewrite lookup_empty.
    - by rewrite lookup_empty. }
  unfold GetRelationMsgIdFromContext, GetSessionIdFromContext. by rewrite E.
Qed.

(** A context whose relation table has an entry for the user gives the
    session id of the entry and its message id converted to [uint]: the
    number itself when it is not negative, 2^64 more when it is. *)
Theorem relation_ids_found c tbl uid d :
  msgRelation c = Some (RelTable tbl) → tbl !! uid = Some d →
  (- 2 ^ 63 ≤ MsgID d < 2 ^ 63)%Z →
  GetSessionIdFromContext (Some c) uid = SessID d
  ∧ GetRelationMsgIdFromContext (Some c) uid =
      Z.to_N (if (MsgID d <? 0)%Z then 2 ^ 64 + MsgID d else MsgID d)%Z.
Proof.
  intros Hrel Hd Hrange.
  unfold GetSessionIdFromContext, GetRelationMsgIdFromContext,
    GetRelationDataFromContextByUID, GetRelationDataFromContext.
  rewrite Hrel, Hd. simpl. split; [done|]. unfold uint_of_int. f_equal.
  destruct (Z.ltb_spec (MsgID d) 0).
  - rewrite <- (Z.mod_add _ 1) by done. rewrite Z.mod_small; lia.
  - rewrite Z.mod_small; lia.
Qed.


(** The two embeddings of [AddToPropagateCtx] agree: read in the store
    after the call, the context returned is the one the first embedding
    computes from the context read in the store before the call. *)
Lemma AddToPropagateCtx_view ctx key val σ :
  (∀ c l, ctx = Some c → shared.propagate c = Some (shared.PropMap l) →
          is_Some (σ !! l)) →
  match shared.AddToPropagateCtx ctx key val σ with
  | Ok (child, σ') => AddToPropagateCtx (view σ ctx) key val = Ok (view σ' child)
  | Fail e => AddToPropagateCtx (view σ ctx) key val = Fail e
  | Panics => AddToPropagateCtx (view σ ctx) key val = Panics
  end.
Proof.
  intros Hwf. destruct ctx as [c|]; [|done].
  unfold shared.AddToPropagateCtx, shared.ToMap, AddToPropagateCtx, ToMap, view.
  destruct (shared.propagate c) as [[l|]|] eqn:E; cbn.
  - destruct (Hwf c l eq_refl E) as [m Hm].
    unfold shared.mapAssign. by rewrite lookup_alter_eq, Hm.
  - done.
  - unfold shared.mapAssign. by rewrite alter_insert_eq, lookup_insert_eq.
Qed.

(** Without a propagated map in the context passed in, the entry goes into
    a new map: the context passed in does not read it. *)
Lemma AddToPropagateCtx_fresh c key val σ :
  shared.propagate c = None →
  ∃ child σ',
    shared.AddToPropagateCtx (Some c) key val σ = Ok (child, σ')
    ∧ shared.GetFromPropagateCtx child key σ' = Ok (Some val)
    ∧ shared.GetFromPropagateCtx (Some c) key σ' = Ok None.
Proof.
  intros Hnone.
  unfold shared.AddToPropagateCtx, shared.GetFromPropagateCtx, shared.ToMap.
  rewrite Hnone. cbn. eexists _, _. split; [done|].
  unfold shared.mapAssign, shared.mapIndex. rewrite alter_insert_eq.
  cbn. split.
  - rewrite lookup_insert_eq. cbn. by rewrite lookup_insert_eq.
  - rewrite lookup_insert_eq. cbn. by rewrite lookup_empty.
Qed.

(** The map is shared, not copied.  [ToMap] returns the map the context
    holds, so on a context that carries a propagated map
    [AddToPropagateCtx] writes the entry into that very map: after the call
    the context passed in reads the new entry too, as does the context
    returned, and its other keys read as before. *)
Theorem AddToPropagateCtx_aliasing c l m key val σ :
  shared.propagate c = Some (shared.PropMap l) → σ !! l = Some m →
  ∃ child σ',
    shared.AddToPropagateCtx (Some c) key val σ = Ok (child, σ')
    ∧ σ' = <[l := <[key := val]> m]> σ
    ∧ shared.GetFromPropagateCtx (Some c) key σ = Ok (m !! key)
    ∧ shared.GetFromPropagateCtx (Some c) key σ' = Ok (Some val)
    ∧ shared.GetFromPropagateCtx child key σ' = Ok (Some val)
    ∧ (∀ k, k ≠ key →
         shared.GetFromPropagateCtx (Some c) k σ'
           = shared.GetFromPropagateCtx (Some c) k σ).
Proof.
  intros Hc Hm.
  assert (alter (insert key val) l σ = <[l := <[key := val]> m]> σ) as Hσ.
  { apply map_eq. intros i. destruct (decide (i = l)) as [->|Hi].
    - by rewrite lookup_alter_eq, lookup_insert_eq, Hm.
    - by rewrite lookup_alter_ne, lookup_insert_ne. }
  unfold shared.AddToPropagateCtx, shared.GetFromPropagateCtx, shared.ToMap.
  rewrite Hc. cbn. unfold shared.mapAssign, shared.mapIndex. rewrite Hσ.
  eexists _, _. split; [done|]. split; [done|]. cbn.
  rewrite Hm, lookup_insert_eq. cbn. rewrite lookup_insert_eq.
  split; [done|]. split; [done|]. split; [done|].
  intros k Hk. by rewrite lookup_insert_ne.
Qed.

(** Encode then decode: when the JSON codec gives [b], not empty, for the
    propagated map [m] of a context and reads [m] back from [b], [Decode] of
    what [Encode] returns is a context with the same propagated map.  A
    context without propagated entries is encoded as the nil slice, which is
    decoded as the nil context, whose propagated map is empty again. *)
Theorem Decode_Encode jc ctx m b :
  ToMap ctx = Ok m →
  (m ≠ ∅ → json_Marshal jc m = Ok b ∧ b ≠ [] ∧ json_Unmarshal jc b = Ok m) →
  ∃ b' ctx',
    Encode jc ctx = Ok b' ∧ Decode jc b' = Ok ctx' ∧ ToMap ctx' = Ok m
    ∧ (m = ∅ → b' = [] ∧ ctx' = None).
Proof.
  intros Hm Hjson. unfold Encode. rewrite Hm.
  destruct (decide (m = ∅)) as [->|Hne].
  - exists [], None. done.
  - destruct (Hjson Hne) as (Hmar & Hb & Hun).
    exists b, (FromMap m). split; [done|]. split; [|done].
    unfold Decode. destruct b; [done|]. by rewrite Hun.
Qed.

(** ** [IPVersion] *)

Lemma countColons_app s1 s2 :
  countColons (s1 +:+ s2) = (countColons s1 + countColons s2)%nat.
Proof.
  induction s1 as [|c s1 IH]; [done|]. simpl. rewrite IH. lia.
Qed.

(** On an address written host, colon, port, with a port without colon,
    [IPVersion] answers IPv4 exactly when the host has no colon: every
    address whose host part contains a colon is taken for IPv6. *)
Theorem IPVersion_host_port host port :
  countColons port = 0%nat →
  IPVersion (host +:+ ":" +:+ port) =
    if decide (countColons host = 0%nat) then IPv4 else IPv6.
Proof.
  intros Hport. unfold IPVersion. rewrite !countColons_app, Hport.
  change (countColons ":") with 1%nat.
  case_decide as Hh.
  - rewrite Hh. done.
  - destruct (Nat.ltb_spec 1 (countColons host + (1 + 0))); [done|lia].
Qed.

(** ** [hbdEncode], continued *)

(** When [hbdEncode] returns, the JSON was produced, the heartbeat frame is
    the packet encoding of the empty body, and the handshake frame encodes a
    payload that is never longer than the JSON and is the JSON itself when
    compression is off. *)
Theorem hbdEncode_returns pk hb enc dc name hrd hbd :
  hbdEncode pk hb enc dc name = Some (hrd, hbd) →
  ∃ json payload,
    gojson_Marshal pk (hData pk hb name) = Ok json
    ∧ pkt_Encode enc PktHandshake payload = Ok hrd
    ∧ pkt_Encode enc PktHeartbeat [] = Ok hbd
    ∧ (length payload ≤ length json)%nat
    ∧ (dc = false → payload = json).
Proof.
  unfold hbdEncode.
  destruct (gojson_Marshal pk _) as [json| |]; [|done|done].
  intros H. exists json.
  assert (∃ payload,
            (if dc
             then match compression_DeflateData pk json with
                  | Ok c => Some (if (length c <? length json)%nat then c else json)
                  | _ => None
                  end
             else Some json) = Some payload) as [payload Hpl].
  { destruct (if dc then _ else _) as [x|]; [by eexists|done]. }
  rewrite Hpl in H. exists payload.
  destruct (pkt_Encode enc PktHandshake payload) as [hrd'| |]; [|done|done].
  destruct (pkt_Encode enc PktHeartbeat []) as [hbd'| |]; [|done|done].
  injection H as <- <-. split; [done|]. split; [done|]. split; [done|].
  destruct dc.
  - destruct (compression_DeflateData pk json) as [c| |]; [|done|done].
    injection Hpl as <-. split; [|done].
    destruct (Nat.ltb_spec (length c) (length json)); lia.
  - injection Hpl as <-. done.
Qed.

(** A failure of deflate, when compression is enabled, makes [hbdEncode]
    panic, whereas the same failure goes unnoticed when compression is
    off. *)
Theorem hbdEncode_deflate_failure pk hb enc name json err hrd hbd :
  gojson_Marshal pk (hData pk hb name) = Ok json →
  compression_DeflateData pk json = Fail err →
  pkt_Encode enc PktHandshake json = Ok hrd →
  pkt_Encode enc PktHeartbeat [] = Ok hbd →
  hbdEncode pk hb enc true name = None
  ∧ hbdEncode pk hb enc false name = Some (hrd, hbd).
Proof.
  intros Hj Hd Hh Hb. unfold hbdEncode. rewrite Hj, Hd. simpl.
  by rewrite Hh, Hb.
Qed.

(** ** The further properties at concrete inputs *)

Lemma ordered_conserves_items_witness :
  [resp3; push3; push2] ++ pending (pushDelay stWaiting5)
    ≡ₚ [push2; push5; push3; resp3].
Proof.
  apply (ordered_conserves_items [push2; push5; push3; resp3] stWaiting5).
  by vm_compute.
Defined.

Lemma ordered_invariant_witness : orderInv stWaiting5.
Proof.
  apply (ordered_invariant [push2; push5; push3; resp3] stWaiting5
           [resp3; push3; push2]).
  by vm_compute.
Defined.

Lemma ordered_keeps_responses_witness :
  filter isResponse [resp5; push5; push2; push3; resp3]
    = filter isResponse [push2; push5; push3; resp5; resp3].
Proof.
  apply (ordered_keeps_responses [push2; push5; push3; resp5; resp3]
           (mkOrder 3 0 ∅)).
  by vm_compute.
Defined.

Lemma deferred_push_waits_witness :
  inBucket push5 5 stWaiting5 ∧ push5 ∉ [resp3; push3; push2; push0].
Proof.
  apply (deferred_push_waits stBuckets235 [resp3; push0]).
  - by vm_compute.
  - vm_compute. distinct_items.
  - all_items ltac:(intros m [= <-] _; reflexivity).
  - exists [push5]. split; [by vm_compute|apply list_elem_of_here].
Defined.

Lemma pushes_follow_their_response_witness :
  ordered newOrder ([push7; push7'] ++ [resp7])
    = Some (mkOrder 7 0 ∅, resp7 :: [push7; push7']).
Proof.
  apply (pushes_follow_their_response 7 [push7; push7'] resp7
           (mkMessage message.Response 7 "room.join" [] false)).
  - reflexivity.
  - all_items ltac:(eexists; by repeat split).
  - reflexivity.
  - reflexivity.
  - reflexivity.
Defined.

Lemma orderedIter_decision_witness :
  orderedIter stGate7 push3 =
    Some (mkOrder (curMsgID stGate7) (pushDelayMID stGate7)
            (delay (pushDelayMID stGate7) push3 (pushDelay stGate7)), []).
Proof.
  destruct (orderedIter_decision stGate7 push3
              (mkMessage message.Push 3 "room.c" [] false)) as (_ & H & _);
    [reflexivity|].
  apply H; [reflexivity|by vm_compute|reflexivity].
Defined.

Lemma Close_after_status_reset_witness :
  ∃ a1 a2,
    Close agent1 = Returned a1 (conn_CloseErr (conn agent1))
    ∧ Close (SetStatus StatusWorking a1) = Returned a2 (conn_CloseErr (conn agent1))
    ∧ trace a2 = trace a1 ++ [LogDebug "Session closed"; ReportClients; ConnClose]
    ∧ GetStatus a2 = StatusClosed.
Proof.
  apply (Close_after_status_reset agent1 StatusWorking);
    [by repeat split|discriminate].
Defined.

Lemma Close_with_panicking_callback_witness :
  ∃ a',
    Close agentBoom = Returned a' (conn_CloseErr (conn agentBoom))
    ∧ trace a' =
        trace agentBoom
          ++ [LogDebug "Session closed"; ChanClose SigStopWrite;
              ChanClose SigStopOrder; ChanClose SigStopHeartbeat; ChanClose SigDie]
          ++ (SessionCallback <$> [cbLeave])
          ++ [SessionCallback cbBoom; LogError "pitaya/onSessionClosed";
              ReportClients; ConnClose].
Proof.
  apply (Close_with_panicking_callback agentBoom [cbLeave] cbBoom [cbAudit]).
  - by repeat split.
  - reflexivity.
  - all_items ltac:(reflexivity).
  - reflexivity.
Defined.

Lemma Push_enqueues_witness :
  ∃ a',
    Push 0 agent1 (ctxMid 7) "room.update" [Byte.x0a] = Returned a' None
    ∧ chOrder a' =
        chOrder agent1
          ++ [mkPendingWrite (ctxMid 7) [Byte.x04; Byte.x0a] None
                (Some (mkMessage message.Push
                         (GetRelationMsgIdFromContext (ctxMid 7)
                            (UID (Session agent1)))
                         "room.update" [Byte.x0a] false))]
    ∧ chSend a' = chSend agent1 ∧ GetStatus a' = GetStatus agent1.
Proof.
  apply (Push_enqueues 0 agent1 (ctxMid 7) "room.update" [Byte.x0a]
           [Byte.x0a] [Byte.x0a] [Byte.x04; Byte.x0a]);
    try reflexivity; discriminate.
Defined.

Lemma send_substitutes_error_payload_witness :
  ∃ a',
    send 0 agentFailingSerializer pushMessage = Returned a' None
    ∧ chOrder a' =
        chOrder agentFailingSerializer
          ++ [sentItem agentFailingSerializer pushMessage
                [Byte.x45] [Byte.x04; Byte.x45]]
    ∧ chSend a' = chSend agentFailingSerializer.
Proof.
  apply (send_substitutes_error_payload 0 agentFailingSerializer pushMessage
           (ErrExternal "marshal") [Byte.x45] [Byte.x45] [Byte.x04; Byte.x45]);
    try reflexivity; discriminate.
Defined.

Lemma ResponseMID_without_route_witness :
  ResponseMID 0 agent1 None 4 [] [] = Panicked agent1.
Proof.
  apply (ResponseMID_without_route 0 agent1 None 4 [] []).
  - discriminate.
  - reflexivity.
  - intros route. vm_compute. discriminate.
Defined.

Lemma heartbeat_recent_activity_witness :
  (2 * Second - 500000000 ≤ 2 * heartbeatTimeout agent1)%Z
  ∧ heartbeatTick 0 hbd1 (2 * Second) (SetLastAt 500000000 agent1)
      ≠ HbReturn ExitTimeout agent1Closed.
Proof.
  split; [by vm_compute|].
  apply (heartbeat_recent_activity 0 hbd1 (2 * Second)%Z 500000000 agent1);
    by vm_compute.
Defined.

Lemma heartbeat_silence_times_out_witness :
  ∃ a', heartbeatTick 0 hbd1 (4 * Second) (SetLastAt 500000000 agent1)
          = HbReturn ExitTimeout a'
        ∧ GetStatus a' = StatusClosed.
Proof.
  apply (heartbeat_silence_times_out 0 hbd1 (4 * Second)%Z 500000000 agent1);
    by vm_compute.
Defined.

Lemma write_drains_in_order_witness :
  ∃ a',
    write [0; 0]%nat agentTwoQueued =
      (a', take (length [0; 0]%nat) (chSend agentTwoQueued) ≫= writtenSinks,
       WriterRunning)
    ∧ chSend a' = drop (length [0; 0]%nat) (chSend agentTwoQueued)
    ∧ trace a' =
        trace agentTwoQueued
          ++ (ConnWrite ∘ pw_data
                <$> take (length [0; 0]%nat) (chSend agentTwoQueued))
    ∧ GetStatus a' = GetStatus agentTwoQueued.
Proof.
  apply (write_drains_in_order [0; 0]%nat agentTwoQueued);
    [reflexivity|reflexivity|simpl; lia].
Defined.

Lemma write_error_closes_witness :
  ∃ a',
    write [0]%nat agentBrokenConn =
      (a', [FinishSpan (pw_ctx (item Byte.x0a)) (Some (ErrExternal "EPIPE"));
            ReportTiming (pw_ctx (item Byte.x0a)) (Some (ErrExternal "EPIPE"))],
       WriterReturned)
    ∧ GetStatus a' = StatusClosed ∧ chSend a' = [item Byte.x0b]
    ∧ trace a' =
        trace agentBrokenConn
          ++ [ConnWrite (pw_data (item Byte.x0a));
              LogError "Failed to write in conn"]
          ++ closeEvents agentBrokenConn.
Proof.
  apply (write_error_closes 0 [] agentBrokenConn (item Byte.x0a)
           [item Byte.x0b] (ErrExternal "EPIPE"));
    [by repeat split|reflexivity|reflexivity|reflexivity].
Defined.


Lemma relation_ids_missing_witness :
  GetRelationMsgIdFromContext (ctxMid 4) "nobody" = 0
  ∧ GetSessionIdFromContext (ctxMid 4) "nobody" = 0%Z.
Proof.
  apply (relation_ids_missing (ctxMid 4) "nobody").
  intros c tbl [= <-] [= <-]. by vm_compute.
Defined.

Lemma relation_ids_found_witness :
  GetSessionIdFromContext (Some ctxNegative) "u1" = SessID (mkRelation 9 (-1))
  ∧ GetRelationMsgIdFromContext (Some ctxNegative) "u1" =
      Z.to_N (if (MsgID (mkRelation 9 (-1)) <? 0)%Z
              then 2 ^ 64 + MsgID (mkRelation 9 (-1))
              else MsgID (mkRelation 9 (-1)))%Z.
Proof.
  apply (relation_ids_found ctxNegative {[ "u1" := mkRelation 9 (-1) ]} "u1"
           (mkRelation 9 (-1))); [reflexivity|by vm_compute|by vm_compute].
Defined.


Lemma AddToPropagateCtx_aliasing_witness :
  ∃ child σ',
    shared.AddToPropagateCtx (Some ctxShared) "peer" POther storeRoute
      = Ok (child, σ')
    ∧ σ' = <[1%positive := <["peer" := POther]> routeMap]> storeRoute
    ∧ shared.GetFromPropagateCtx (Some ctxShared) "peer" storeRoute
        = Ok (routeMap !! "peer")
    ∧ shared.GetFromPropagateCtx (Some ctxShared) "peer" σ' = Ok (Some POther)
    ∧ shared.GetFromPropagateCtx child "peer" σ' = Ok (Some POther)
    ∧ (∀ k, k ≠ "peer" →
         shared.GetFromPropagateCtx (Some ctxShared) k σ'
           = shared.GetFromPropagateCtx (Some ctxShared) k storeRoute).
Proof.
  apply (AddToPropagateCtx_aliasing ctxShared 1%positive routeMap "peer" POther
           storeRoute); reflexivity.
Defined.

Lemma Decode_Encode_witness :
  ∃ b' ctx',
    Encode (toyCodec routeMap) (FromMap routeMap) = Ok b'
    ∧ Decode (toyCodec routeMap) b' = Ok ctx' ∧ ToMap ctx' = Ok routeMap
    ∧ (routeMap = ∅ → b' = [] ∧ ctx' = None).
Proof.
  apply (Decode_Encode (toyCodec routeMap) (FromMap routeMap) routeMap
           [Byte.x7b; Byte.x7d]); [reflexivity|].
  intros _. by repeat split.
Defined.

Lemma IPVersion_host_port_witness :
  IPVersion ("127.0.0.1" +:+ ":" +:+ "3250") =
    if decide (countColons "127.0.0.1" = 0%nat) then IPv4 else IPv6.
Proof. apply (IPVersion_host_port "127.0.0.1" "3250"). reflexivity. Defined.

Example IPVersion_ipv6_literal : IPVersion "[::1]:3250" = IPv6.
Proof. reflexivity. Qed.

Lemma hbdEncode_returns_witness :
  ∃ json payload,
    gojson_Marshal (packagesTake 2) (hData (packagesTake 2) Second "raw") = Ok json
    ∧ pkt_Encode tagEncoder PktHandshake payload = Ok [Byte.x01; Byte.x7b; Byte.x22]
    ∧ pkt_Encode tagEncoder PktHeartbeat [] = Ok [Byte.x03]
    ∧ (length payload ≤ length json)%nat
    ∧ (true = false → payload = json).
Proof.
  apply (hbdEncode_returns (packagesTake 2) Second tagEncoder true "raw").
  reflexivity.
Defined.

Lemma hbdEncode_deflate_failure_witness :
  hbdEncode packagesNoDeflate Second tagEncoder true "raw" = None
  ∧ hbdEncode packagesNoDeflate Second tagEncoder false "raw"
      = Some ([Byte.x01; Byte.x7b; Byte.x7d], [Byte.x03]).
Proof.
  apply (hbdEncode_deflate_failure packagesNoDeflate Second tagEncoder "raw"
           [Byte.x7b; Byte.x7d] (ErrExternal "deflate"));
    reflexivity.
Defined.
